(** * Helixer, [scripts/predictions2hints.py]: predictions to AUGUSTUS hints

    A shallow embedding of [divvy_by_confidence], [start_end_strand] and
    [main], and the properties of the segmentation and of the coordinate
    arithmetic.

    Conventions of the embedding:
    - Python integers are [Z]; a numpy array of shape (n, 4) is a list of
      4-tuples; indexing and slicing follow Python (negative indices count
      from the end, an index outside the array raises [IndexError]).
    - The floating point numbers of the prediction arrays are kept abstract
      (class [Scalar]): the code only subtracts, adds, divides, takes absolute
      values and compares them.  What is proved about indices holds for every
      such arithmetic; [Q] (exact rationals) is the instance used to run the
      code on concrete data.
    - A generator is the list of the values it yields together with the
      exception, if any, that ends it. *)

From Stdlib Require Import ZArith QArith Qabs List Bool String Lia.
Import ListNotations.
Local Open Scope Z_scope.

(** ** Numbers of the prediction arrays *)

Class Scalar (F : Type) : Type := {
  f_zero : F;
  f_of_Z : Z -> F;
  f_add : F -> F -> F;
  f_sub : F -> F -> F;
  f_div : F -> F -> F;
  f_abs : F -> F;
  f_gt : F -> F -> bool  (* [f_gt a b] is [a > b] *)
}.

#[export] Instance Q_Scalar : Scalar Q := {
  f_zero := 0%Q;
  f_of_Z := inject_Z;
  f_add := Qplus;
  f_sub := Qminus;
  f_div := Qdiv;
  f_abs := Qabs;
  f_gt := fun a b => negb (Qle_bool a b)
}.

(** ** Exceptions and generators *)

Inductive exn : Type :=
| IndexError (index size : Z)
| ValueError.

Definition result (A : Type) : Type := (exn + A)%type.

Definition ret {A} (a : A) : result A := inr a.

Definition bind {A B} (m : result A) (k : A -> result B) : result B :=
  match m with
  | inl e => inl e
  | inr a => k a
  end.

Notation "x <- m ;; k" := (bind m (fun x => k))
  (at level 61, m at next level, right associativity).
Notation "' p <- m ;; k" := (bind m (fun x => let 'p := x in k))
  (at level 61, p pattern, m at next level, right associativity).

(** What a generator produced: the values yielded, in order, and the
    exception that ended it ([None] when it returned). *)
Definition gen (A : Type) : Type := (list A * option exn)%type.

Definition raised {A} (e : exn) : gen A := ([], Some e).

Definition yield_then {A} (a : A) (g : gen A) : gen A := (a :: fst g, snd g).

(** A generator whose body, before its loop, is a fallible computation. *)
Definition gen_of_result {A} (m : result (gen A)) : gen A :=
  match m with
  | inl e => raised e
  | inr g => g
  end.

(** [for x in xs: body(x)], where the body emits values and may raise. *)
Fixpoint for_each {A B} (xs : list A) (body : A -> gen B) : gen B :=
  match xs with
  | [] => ([], None)
  | x :: xs' =>
      match body x with
      | (out, Some e) => (out, Some e)
      | (out, None) => let r := for_each xs' body in (out ++ fst r, snd r)
      end
  end.

(** [for x in g: body(x)] over a generator [g]: the exception of [g] is met
    after its yielded values have been consumed. *)
Definition for_gen {A B} (g : gen A) (body : A -> gen B) : gen B :=
  match for_each (fst g) body with
  | (out, Some e) => (out, Some e)
  | (out, None) => (out, snd g)
  end.

(** ** Python and numpy primitives *)

Definition len {A} (l : list A) : Z := Z.of_nat (List.length l).

(** [l[i]] *)
Definition getitem {A} (l : list A) (i : Z) : result A :=
  let j := if i <? 0 then i + len l else i in
  if (j <? 0) || (len l <=? j) then inl (IndexError i (len l))
  else match nth_error l (Z.to_nat j) with
       | Some a => inr a
       | None => inl (IndexError i (len l))
       end.

Definition slice_bound (n v : Z) : Z :=
  if v <? 0 then Z.max (v + n) 0 else Z.min v n.

(** [l[lo:hi]] *)
Definition slice {A} (l : list A) (lo hi : Z) : list A :=
  let lo' := slice_bound (len l) lo in
  let hi' := slice_bound (len l) hi in
  firstn (Z.to_nat (hi' - lo')) (skipn (Z.to_nat lo') l).

(** Number of elements of [range(start, stop, step)]. *)
Definition range_len (start stop step : Z) : result nat :=
  if step =? 0 then inl ValueError
  else if 0 <? step
       then ret (if start <? stop then Z.to_nat ((stop - start - 1) / step + 1) else O)
       else ret (if stop <? start then Z.to_nat ((start - stop - 1) / (- step) + 1) else O).

Fixpoint map2 {A B C} (f : A -> B -> C) (l : list A) (l' : list B) : list C :=
  match l, l' with
  | a :: t, b :: t' => f a b :: map2 f t t'
  | _, _ => []
  end.

Section Numpy.
Context {F : Type} `{Scalar F}.

Fixpoint cumsum_from (acc : F) (l : list F) : list F :=
  match l with
  | [] => []
  | x :: t => let acc' := f_add acc x in acc' :: cumsum_from acc' t
  end.

(** [np.cumsum] *)
Definition cumsum (l : list F) : list F :=
  match l with
  | [] => []
  | x :: t => x :: cumsum_from x t
  end.

(** [np.mean] *)
Definition mean (l : list F) : F :=
  f_div (fold_left f_add l f_zero) (f_of_Z (len l)).

Fixpoint argmax_from (best : Z) (vbest : F) (j : Z) (l : list F) : Z :=
  match l with
  | [] => best
  | x :: t => if f_gt x vbest then argmax_from j x (j + 1) t
              else argmax_from best vbest (j + 1) t
  end.

(** [np.argmax] of a one-dimensional array: the first index of the maximum. *)
Definition argmax (l : list F) : result Z :=
  match l with
  | [] => inl ValueError
  | x :: t => ret (argmax_from 0 x 1 t)
  end.

(** One row of a prediction array: the probabilities of the four classes
    (intergenic, UTR, coding, intron). *)
Definition Row : Type := (F * F * F * F)%type.

Definition row_list (r : Row) : list F :=
  let '(a, b, c, d) := r in [a; b; c; d].

(** [chunk[:, c]] *)
Definition column (chunk : list Row) (c : Z) : result (list F) :=
  match chunk with
  | [] => ret []
  | r :: _ => _ <- getitem (row_list r) c ;;
              ret (map (fun r => match getitem (row_list r) c with
                                 | inr x => x
                                 | inl _ => f_zero
                                 end) chunk)
  end.
End Numpy.

Arguments Row F : clear implicits.

(** ** The pre-hints and [divvy_by_confidence] *)

Record PreHint (F : Type) : Type := mkPreHint {
  category : Z;
  start : Z;
  end_ : Z;
  confidence : F
}.
Arguments mkPreHint {F}.
Arguments category {F}.
Arguments start {F}.
Arguments end_ {F}.
Arguments confidence {F}.

Definition HINTS : list string :=
  ["irpart"; "UTRpart"; "CDSpart"; "intronpart"]%string.

Section Divvy.
Context {F : Type} `{Scalar F}.

(** The state of the [for] loop of [divvy_by_confidence] is the loop
    variable [i] and the two trackers; [k] counts the remaining
    iterations of the [range]. *)
Fixpoint divvy_loop (main_class_column cumulative_diffs : list F)
    (main_class min_step max_size : Z) (stability_threshold : F)
    (padded_seq_end : Z)
    (k : nat) (i end_of_last_yield : Z) (cdiff_at_last_yield : F)
  : gen (PreHint F) :=
  match k with
  | O => ([], None)
  | S k' =>
      let end' := Z.min (i + min_step) padded_seq_end in
      match getitem cumulative_diffs end' with
      | inl e => raised e
      | inr cd =>
          if f_gt (f_sub cd cdiff_at_last_yield) stability_threshold
             || (max_size <? end' - end_of_last_yield)
             || (end' =? padded_seq_end)
          then
            let start' := end_of_last_yield in
            yield_then
              {| category := main_class;
                 start := start';
                 end_ := end';
                 confidence := mean (slice main_class_column start' end') |}
              (divvy_loop main_class_column cumulative_diffs
                 main_class min_step max_size stability_threshold
                 padded_seq_end k' (i + min_step) end' cd)
          else
            divvy_loop main_class_column cumulative_diffs
              main_class min_step max_size stability_threshold
              padded_seq_end k' (i + min_step)
              end_of_last_yield cdiff_at_last_yield
      end
  end.

(** [np.abs(chunk[:-1, c] - chunk[1:, c])] on the column [c]. *)
Definition abs_diffs (col : list F) : list F :=
  map2 (fun a b => f_abs (f_sub a b)) (removelast col) (tl col).

Definition divvy_by_confidence (one_class_chunk : list (Row F))
    (step_key : list (Z * Z)) (pad : Z) (stability_threshold : F)
  : gen (PreHint F) :=
  gen_of_result (
    row0 <- getitem one_class_chunk 0 ;;
    main_class <- argmax (row_list row0) ;;
    '(min_step, max_size) <- getitem step_key main_class ;;
    col <- column one_class_chunk main_class ;;
    let diffs := abs_diffs col in
    let cumulative_diffs := cumsum diffs in
    cdiff_at_last_yield <- getitem cumulative_diffs pad ;;
    let end_of_last_yield := pad in
    let padded_seq_end := len one_class_chunk - pad in
    k <- range_len pad padded_seq_end min_step ;;
    ret (divvy_loop col cumulative_diffs main_class min_step max_size
           stability_threshold padded_seq_end
           k pad end_of_last_yield cdiff_at_last_yield)).

(** The default of the keyword argument [stability_threshold=0.1]. *)
Definition default_stability_threshold : F := f_div (f_of_Z 1) (f_of_Z 10).
End Divvy.

(** ** [start_end_strand] *)

Record ContiguousBit : Type := mkContiguousBit {
  seqid : string;
  start_i : Z;
  end_i : Z;
  is_plus_strand : bool
}.

Definition start_end_strand {F} (contiguous_bit : ContiguousBit)
    (pred_chunk_start one_category_start : Z) (pre_hint : PreHint F)
  : Z * Z * string :=
  if is_plus_strand contiguous_bit then
    let absolute_start := pred_chunk_start + one_category_start + start pre_hint in
    let absolute_end := pred_chunk_start + one_category_start + end_ pre_hint in
    let gff_start := absolute_start + 1 in
    let gff_end := absolute_end in
    (gff_start, gff_end, "+"%string)
  else
    let absolute_start := pred_chunk_start - one_category_start - start pre_hint in
    let absolute_end := pred_chunk_start - one_category_start - end_ pre_hint in
    let gff_start := absolute_start + 1 in
    let gff_end := absolute_end in
    let '(gff_start, gff_end) := (gff_end, gff_start) in
    (gff_start, gff_end, "-"%string).

(** ** [main] *)

Module Args.
(** The parsed command line; [predictions] and [h5_data] stand for the
    opened files. *)
Record t (H5 F : Type) : Type := mk {
  predictions : H5;
  h5_data : H5;
  step_genicpart : Z;
  max_genicpart_size : Z;
  step_irpart : Z;
  max_irpart_size : Z;
  pad : Z;
  stability_threshold : F
}.
Arguments mk {H5 F}.
Arguments predictions {H5 F}.
Arguments h5_data {H5 F}.
Arguments step_genicpart {H5 F}.
Arguments max_genicpart_size {H5 F}.
Arguments step_irpart {H5 F}.
Arguments max_irpart_size {H5 F}.
Arguments pad {H5 F}.
Arguments stability_threshold {H5 F}.
End Args.

(** One line of the hints file, before its fields are turned into text. *)
Record GffEntry (F : Type) : Type := mkGffEntry {
  sequence : string;
  source : string;
  feature : string;
  gff_start : Z;
  gff_end : Z;
  score : F;
  strand : string;
  phase : string;
  attribute : string
}.
Arguments mkGffEntry {F}.
Arguments sequence {F}.
Arguments source {F}.
Arguments feature {F}.
Arguments gff_start {F}.
Arguments gff_end {F}.
Arguments score {F}.
Arguments strand {F}.
Arguments phase {F}.
Arguments attribute {F}.

Section Main.
Context {H5 F : Type} `{Scalar F}.

(** The three helpers of [helixer.core.helpers] that [main] imports. *)
Variable get_contiguous_ranges : H5 -> list ContiguousBit.
Variable read_in_chunks : H5 -> H5 -> Z -> Z -> list (list (Row F) * Z * Z).
Variable find_confident_single_class_regions : list (Row F) -> Z -> list (Z * Z).

Definition hint_step_key (arguments : Args.t H5 F) : list (Z * Z) :=
  let ir_step_and_max := (Args.step_irpart arguments, Args.step_irpart arguments) in
  let genic_step_and_max :=
    (Args.step_genicpart arguments, Args.step_genicpart arguments) in
  [ir_step_and_max; genic_step_and_max; genic_step_and_max; genic_step_and_max].

Definition gff_entry_of (contiguous_bit : ContiguousBit)
    (start' start_conf : Z) (pre_hint : PreHint F) : gen (GffEntry F) :=
  match getitem HINTS (category pre_hint) with
  | inl e => raised e
  | inr feature' =>
      let '(gff_start', gff_end', strand') :=
        start_end_strand contiguous_bit start' start_conf pre_hint in
      ([ {| sequence := seqid contiguous_bit;
            source := "Helixer";
            feature := feature';
            gff_start := gff_start';
            gff_end := gff_end';
            score := confidence pre_hint;
            strand := strand';
            phase := ".";
            attribute := "source=H" |} ], None)
  end.

(** The lines [main] writes to the hints file, and the exception that
    stopped it, if any. *)
Definition main (arguments : Args.t H5 F) : gen (GffEntry F) :=
  let data := Args.h5_data arguments in
  let preds := Args.predictions arguments in
  for_each (get_contiguous_ranges data) (fun contiguous_bit =>
    for_each (read_in_chunks preds data
                (start_i contiguous_bit) (end_i contiguous_bit))
      (fun '(pred_chunk, start', _) =>
        for_each (find_confident_single_class_regions pred_chunk
                    (Args.pad arguments))
          (fun '(start_conf, end_conf) =>
            let one_class_chunk := slice pred_chunk start_conf end_conf in
            for_gen (divvy_by_confidence one_class_chunk
                       (hint_step_key arguments) (Args.pad arguments)
                       default_stability_threshold)
              (gff_entry_of contiguous_bit start' start_conf)))).
End Main.

(** The defaults of the command line options. *)
Definition default_arguments {H5 F} `{Scalar F} (preds data : H5) : Args.t H5 F :=
  {| Args.predictions := preds;
     Args.h5_data := data;
     Args.step_genicpart := 10;
     Args.max_genicpart_size := 500;
     Args.step_irpart := 100;
     Args.max_irpart_size := 10000;
     Args.pad := 5;
     Args.stability_threshold := default_stability_threshold |}.

(** * Terms of the specification *)

(** ** Coordinates *)

(** The number of base pairs of a closed interval [gff_start, gff_end]. *)
Definition gff_width (r : Z * Z * string) : Z :=
  let '(gff_start', gff_end', _) := r in gff_end' - gff_start' + 1.

Definition gff_span (r : Z * Z * string) : Z * Z := fst r.

Definition gff_strand (r : Z * Z * string) : string := snd r.

(** The pre-hint that covers the same rows once the rows of a sub-region of
    [region_len] rows are put in reverse order. *)
Definition mirror_pre_hint {F} (region_len : Z) (pre_hint : PreHint F) : PreHint F :=
  {| category := category pre_hint;
     start := region_len - end_ pre_hint;
     end_ := region_len - start pre_hint;
     confidence := confidence pre_hint |}.

Definition flip_strand (contiguous_bit : ContiguousBit) : ContiguousBit :=
  {| seqid := seqid contiguous_bit;
     start_i := start_i contiguous_bit;
     end_i := end_i contiguous_bit;
     is_plus_strand := negb (is_plus_strand contiguous_bit) |}.

(** ** Splitting *)

Definition item_or {A} (d : A) (l : list A) (i : Z) : A :=
  match getitem l i with
  | inr a => a
  | inl _ => d
  end.

(** A list of pre-hints that tiles [a, b): the first starts at [a], each
    one starts where the one before it ends, none is empty, and the last
    ends at [b]. *)
Inductive tiling {F} : Z -> list (PreHint F) -> Z -> Prop :=
| tiling_last (p : PreHint F) :
    start p < end_ p -> tiling (start p) [p] (end_ p)
| tiling_cons (p : PreHint F) (ps : list (PreHint F)) (b : Z) :
    start p < end_ p -> tiling (end_ p) ps b -> tiling (start p) (p :: ps) b.

Section DivvyTerms.
Context {F : Type} `{Scalar F}.

(** [main_class] of [divvy_by_confidence]. *)
Definition dominant_class (one_class_chunk : list (Row F)) : result Z :=
  row0 <- getitem one_class_chunk 0 ;; argmax (row_list row0).

(** [(min_step, max_size)] of [divvy_by_confidence]. *)
Definition policy (one_class_chunk : list (Row F)) (step_key : list (Z * Z))
  : result (Z * Z) :=
  main_class <- dominant_class one_class_chunk ;; getitem step_key main_class.

(** [cumulative_diffs] of [divvy_by_confidence]. *)
Definition cumulative_diffs (one_class_chunk : list (Row F)) : list F :=
  match (main_class <- dominant_class one_class_chunk ;;
         column one_class_chunk main_class) with
  | inr col => cumsum (abs_diffs col)
  | inl _ => []
  end.

(** What the loop compares with the threshold at the candidate boundary
    [e] when the last pre-hint ended at [s]:
    [cumulative_diffs[e] - cumulative_diffs[s]]. *)
Definition volatility (cum : list F) (s e : Z) : F :=
  f_sub (item_or f_zero cum e) (item_or f_zero cum s).

(** The test that closes a pre-hint at its end. *)
Definition closes (cum : list F) (thr : F) (max_size padded_seq_end : Z)
    (p : PreHint F) : Prop :=
  f_gt (volatility cum (start p) (end_ p)) thr = true
  \/ max_size < end_ p - start p
  \/ end_ p = padded_seq_end.

(** No candidate boundary [pad + j * min_step] strictly inside the
    pre-hint passed that test. *)
Definition quiet_inside (cum : list F) (thr : F) (max_size pad min_step : Z)
    (p : PreHint F) : Prop :=
  forall j : Z,
    start p < pad + j * min_step < end_ p ->
    f_gt (volatility cum (start p) (pad + j * min_step)) thr = false
    /\ pad + j * min_step - start p <= max_size.

(** A pre-hint as the loop yields it: closed by the test, at the first
    candidate boundary that passes it, and of the dominant class. *)
Definition hint_ok (cum : list F) (main_class min_step max_size : Z)
    (thr : F) (padded_seq_end pad : Z) (p : PreHint F) : Prop :=
  closes cum thr max_size padded_seq_end p
  /\ quiet_inside cum thr max_size pad min_step p
  /\ category p = main_class.
End DivvyTerms.

Definition zero_row {F} `{Scalar F} : Row F := (f_zero, f_zero, f_zero, f_zero).

(** The sum of the absolute changes of a class's probability between the
    consecutive rows of the span [s, e) of a column. *)
Definition span_change (col : list Q) (s e : Z) : Q :=
  fold_left Qplus (abs_diffs (slice col s e)) 0%Q.

(** ** Example data *)

Definition example_row (p : Q) : Row Q := (p, (1 - p)%Q, 0%Q, 0%Q).

(** Rows whose intergenic probability alternates between 0.9 and 0.5. *)
Fixpoint alternating (n : nat) (high : bool) : list (Row Q) :=
  match n with
  | O => []
  | S n' => example_row (if high then 9 # 10 else 5 # 10) :: alternating n' (negb high)
  end.

Definition volatile_chunk : list (Row Q) := alternating 30 true.

Definition steady_chunk (n : nat) : list (Row Q) := repeat (example_row (95 # 100)) n.

Definition example_key : list (Z * Z) := [(10, 20); (10, 20); (10, 20); (10, 20)].

(** Rows that are confidently UTR. *)
Definition utr_chunk (n : nat) : list (Row Q) :=
  repeat ((5 # 100)%Q, (95 # 100)%Q, 0%Q, 0%Q) n.

(** A store with one forward contiguous bit, read as one chunk that is one
    confident region. *)
Definition one_bit (_ : unit) : list ContiguousBit :=
  [mkContiguousBit "chr1" 0 1 true].

Definition one_chunk (chunk : list (Row Q)) (_ _ : unit) (_ _ : Z)
  : list (list (Row Q) * Z * Z) :=
  [(chunk, 0, len chunk)].

Definition whole_chunk (pred_chunk : list (Row Q)) (_ : Z) : list (Z * Z) :=
  [(0, len pred_chunk)].

(** A store with one reverse contiguous bit, read as one chunk whose start
    is its upper end. *)
Definition one_reverse_bit (_ : unit) : list ContiguousBit :=
  [mkContiguousBit "chr1" 0 1 false].

Definition one_reverse_chunk (chunk : list (Row Q)) (_ _ : unit) (_ _ : Z)
  : list (list (Row Q) * Z * Z) :=
  [(chunk, len chunk, 0)].

(** ** The command line *)

(** The step key that the options of the command line describe: each
    category with its step size and its max interval size. *)
Definition configured_step_key {H5 F} (arguments : Args.t H5 F) : list (Z * Z) :=
  let ir := (Args.step_irpart arguments, Args.max_irpart_size arguments) in
  let genic := (Args.step_genicpart arguments, Args.max_genicpart_size arguments) in
  [ir; genic; genic; genic].

Definition with_stability_threshold {H5 F} (t : F) (arguments : Args.t H5 F)
  : Args.t H5 F :=
  {| Args.predictions := Args.predictions arguments;
     Args.h5_data := Args.h5_data arguments;
     Args.step_genicpart := Args.step_genicpart arguments;
     Args.max_genicpart_size := Args.max_genicpart_size arguments;
     Args.step_irpart := Args.step_irpart arguments;
     Args.max_irpart_size := Args.max_irpart_size arguments;
     Args.pad := Args.pad arguments;
     Args.stability_threshold := t |}.

Definition with_step_irpart {H5 F} (step : Z) (arguments : Args.t H5 F)
  : Args.t H5 F :=
  {| Args.predictions := Args.predictions arguments;
     Args.h5_data := Args.h5_data arguments;
     Args.step_genicpart := Args.step_genicpart arguments;
     Args.max_genicpart_size := Args.max_genicpart_size arguments;
     Args.step_irpart := step;
     Args.max_irpart_size := Args.max_irpart_size arguments;
     Args.pad := Args.pad arguments;
     Args.stability_threshold := Args.stability_threshold arguments |}.

(** * Further terms *)

(** ** Candidate boundaries *)

(** [x] is one of the values [pad + j * min_step] that the loop variable of
    [divvy_by_confidence] takes. *)
Definition on_grid (pad min_step x : Z) : Prop :=
  exists j : Z, 0 <= j /\ x = pad + j * min_step.

(** The start of a pre-hint is on the grid; so is its end, unless it is the
    padded end of the region. *)
Definition grid_hint {F} (pad min_step padded_seq_end : Z) (p : PreHint F) : Prop :=
  on_grid pad min_step (start p)
  /\ (end_ p = padded_seq_end \/ on_grid pad min_step (end_ p)).

(** ** One confident region in [main] *)

(** The body of the loop of [main] over the confident regions of a chunk:
    the lines written for the region [start_conf, end_conf) of [pred_chunk],
    whose offset in the contiguous bit is [start']. *)
Definition region_hints {H5 F} `{Scalar F} (arguments : Args.t H5 F)
    (contiguous_bit : ContiguousBit) (pred_chunk : list (Row F)) (start' : Z)
    (region : Z * Z) : gen (GffEntry F) :=
  let '(start_conf, end_conf) := region in
  let one_class_chunk := slice pred_chunk start_conf end_conf in
  for_gen (divvy_by_confidence one_class_chunk (hint_step_key arguments)
             (Args.pad arguments) default_stability_threshold)
    (gff_entry_of contiguous_bit start' start_conf).

(** The strand column of the lines of a contiguous bit. *)
Definition strand_of (contiguous_bit : ContiguousBit) : string :=
  if is_plus_strand contiguous_bit then "+"%string else "-"%string.

(** The line [main] writes for a pre-hint whose feature is [feature']. *)
Definition hint_line {F} (feature' : string) (contiguous_bit : ContiguousBit)
    (start' start_conf : Z) (pre_hint : PreHint F) : GffEntry F :=
  let r := start_end_strand contiguous_bit start' start_conf pre_hint in
  {| sequence := seqid contiguous_bit;
     source := "Helixer";
     feature := feature';
     gff_start := fst (fst r);
     gff_end := snd (fst r);
     score := confidence pre_hint;
     strand := snd r;
     phase := ".";
     attribute := "source=H" |}.

(** * [export.py] *)

From Stdlib Require Ascii.

Module ExportScript.
(** The character [','] (code 44). *)
Definition comma : Ascii.ascii := Ascii.ascii_of_nat 44.

(** [s.split(',')]: the pieces of [s] between its commas, empty pieces
    included. *)
Fixpoint split_comma (s : string) : list string :=
  match s with
  | EmptyString => [EmptyString]
  | String c s' =>
      if Ascii.eqb c comma then EmptyString :: split_comma s'
      else match split_comma s' with
           | piece :: pieces => String c piece :: pieces
           | [] => [String c EmptyString]
           end
  end.

(** The value of [args.genomes] and of [args.exclude_genomes]: the text of
    the option, or the list [main] replaces it with. *)
Inductive str_or_list : Type :=
| Str (s : string)
| StrList (l : list string).

(** The parsed command line; [R] is the type of the two float options. *)
Record args (R : Type) : Type := mk_args {
  db_path_in : string;
  out_dir : string;
  genomes : string;
  exclude_genomes : string;
  chunk_size : Z;
  coordinate_chance : R;
  val_size : R;
  only_test_set : bool;
  keep_errors : bool
}.
Arguments mk_args {R}.
Arguments db_path_in {R}.
Arguments out_dir {R}.
Arguments genomes {R}.
Arguments exclude_genomes {R}.
Arguments chunk_size {R}.
Arguments coordinate_chance {R}.
Arguments val_size {R}.
Arguments only_test_set {R}.
Arguments keep_errors {R}.

(** What [main] does: it builds an [ExportController] and calls its
    [export] once, with these arguments. *)
Record export_call (R : Type) : Type := mk_call {
  controller_db_path_in : string;
  controller_out_dir : string;
  controller_only_test_set : bool;
  call_chunk_size : Z;
  call_genomes : str_or_list;
  call_exclude : str_or_list;
  call_coordinate_chance : R;
  call_val_size : R;
  call_keep_errors : bool
}.
Arguments mk_call {R}.
Arguments controller_db_path_in {R}.
Arguments controller_out_dir {R}.
Arguments controller_only_test_set {R}.
Arguments call_chunk_size {R}.
Arguments call_genomes {R}.
Arguments call_exclude {R}.
Arguments call_coordinate_chance {R}.
Arguments call_val_size {R}.
Arguments call_keep_errors {R}.

(** [if text != '': text = text.split(',')] *)
Definition split_option (text : string) : str_or_list :=
  if String.eqb text "" then Str text else StrList (split_comma text).

Definition main {R} (a : args R) : export_call R :=
  {| controller_db_path_in := db_path_in a;
     controller_out_dir := out_dir a;
     controller_only_test_set := only_test_set a;
     call_chunk_size := chunk_size a;
     call_genomes := split_option (genomes a);
     call_exclude := split_option (exclude_genomes a);
     call_coordinate_chance := coordinate_chance a;
     call_val_size := val_size a;
     call_keep_errors := keep_errors a |}.

Inductive outcome (R : Type) : Type :=
| AssertionError (message : string)
| Exported (c : export_call R).
Arguments AssertionError {R}.
Arguments Exported {R}.

(** The truth value of a string: it is not empty. *)
Definition truthy (s : string) : bool := negb (String.eqb s "").

(** The script, once the command line is parsed. *)
Definition script {R} (a : args R) : outcome R :=
  if negb (truthy (genomes a) && truthy (exclude_genomes a))
  then Exported (main a)
  else AssertionError "Can not include and exclude together".

Definition is_list (v : str_or_list) : bool :=
  match v with
  | Str _ => false
  | StrList _ => true
  end.

Definition has_comma (s : string) : Prop := In comma (list_ascii_of_string s).
End ExportScript.

(** * [HelixerModel.py] *)

(** ** [ConfusionMatrixTrain] *)

Module ConfusionMatrixTrain.
(** The genic F1 that [calculate_cm] returns: a number or not-a-number. *)
Inductive score : Type :=
| NaN
| Num (q : Q).

(** The fields of the callback that its methods use. *)
Record t : Type := mk {
  save_model_path : string;
  report_to_nni : bool;
  best_genic_f1 : Q
}.

(** What a method does to the outside: a report to nni, or the model of the
    current epoch saved at a path. *)
Inductive effect : Type :=
| ReportIntermediate (genic_f1 : Q)
| ReportFinal (genic_f1 : Q)
| SaveModel (path : string) (epoch : Z).

Definition init (save_model_path' : string) (report_to_nni' : bool) : t :=
  {| save_model_path := save_model_path';
     report_to_nni := report_to_nni';
     best_genic_f1 := 0 |}.

(** [if np.isnan(genic_f1): genic_f1 = 0.0] *)
Definition nan_to_zero (s : score) : Q :=
  match s with
  | NaN => 0
  | Num q => q
  end.

(** [on_epoch_end], given what [calculate_cm] returned for the epoch. *)
Definition on_epoch_end (self : t) (epoch : Z) (calculated : score)
  : t * list effect :=
  let genic_f1 := nan_to_zero calculated in
  let reported :=
    if report_to_nni self then [ReportIntermediate genic_f1] else [] in
  if negb (Qle_bool genic_f1 (best_genic_f1 self))
  then ({| save_model_path := save_model_path self;
           report_to_nni := report_to_nni self;
           best_genic_f1 := genic_f1 |},
        reported ++ [SaveModel (save_model_path self) epoch])
  else (self, reported).

Definition on_train_end (self : t) : list effect :=
  if report_to_nni self then [ReportFinal (best_genic_f1 self)] else [].

(** A training: [on_epoch_end] after each epoch, numbered from [epoch], then
    [on_train_end]. *)
Fixpoint epochs (self : t) (epoch : Z) (calculated : list score)
  : t * list effect :=
  match calculated with
  | [] => (self, [])
  | s :: rest =>
      let '(self', effects) := on_epoch_end self epoch s in
      let '(self'', effects') := epochs self' (epoch + 1) rest in
      (self'', effects ++ effects')
  end.

Definition training (self : t) (calculated : list score) : t * list effect :=
  let '(self', effects) := epochs self 0 calculated in
  (self', effects ++ on_train_end self').

(** The epochs whose model was saved, in order. *)
Fixpoint saved_epochs (effects : list effect) : list Z :=
  match effects with
  | [] => []
  | SaveModel _ epoch :: rest => epoch :: saved_epochs rest
  | _ :: rest => saved_epochs rest
  end.
End ConfusionMatrixTrain.

(** ** [acc_region] *)

Module Accuracy.
(** The tensors [y_true] and [y_pred] are lists of rows of four class
    values, one row for each position of each sequence of the batch, in
    order. *)

(** [tf.boolean_mask] *)
Fixpoint boolean_mask {A} (rows : list A) (mask : list bool) : list A :=
  match rows, mask with
  | r :: rows', m :: mask' =>
      if m then r :: boolean_mask rows' mask' else boolean_mask rows' mask'
  | _, _ => []
  end.

(** [K.any(tf.equal(row, 1.0))] *)
Definition any_one (r : Row Q) : bool :=
  existsb (fun x => Qeq_bool x 1) (row_list r).

(** [K.argmax] of a row. *)
Definition row_argmax (r : Row Q) : Z :=
  let '(a, b, c, d) := r in argmax_from 0 a 1 [b; c; d].

Definition acc_region (y_true y_pred : list (Row Q)) (col : Z) (value : Q)
  : result Q :=
  contents <- column y_true col ;;
  let non_zero_pad_mask := map any_one y_true in
  let content_mask := map (fun x => Qeq_bool x value) contents in
  let mask := map2 andb non_zero_pad_mask content_mask in
  let y_true' := map row_argmax (boolean_mask y_true mask) in
  let y_pred' := map row_argmax (boolean_mask y_pred mask) in
  let errors := map2 (fun t p => if t =? p then 1%Q else 0%Q) y_true' y_pred' in
  ret (if len errors =? 0 then 0%Q else mean errors).

Definition acc_g_oh (y_true y_pred : list (Row Q)) : result Q :=
  acc_region y_true y_pred 0 0%Q.

Definition acc_ig_oh (y_true y_pred : list (Row Q)) : result Q :=
  acc_region y_true y_pred 0 1%Q.

(** The mask of [acc_region] at one row. *)
Definition selected (col : Z) (value : Q) (r : Row Q) : bool :=
  any_one r && Qeq_bool (item_or 0%Q (row_list r) col) value.

(** A one-hot label: one class is 1, the others are 0. *)
Definition one_hot (r : Row Q) : Prop :=
  r = (1%Q, 0%Q, 0%Q, 0%Q) \/ r = (0%Q, 1%Q, 0%Q, 0%Q)
  \/ r = (0%Q, 0%Q, 1%Q, 0%Q) \/ r = (0%Q, 0%Q, 0%Q, 1%Q).

(** The label of a padded position. *)
Definition zero_label : Row Q := (0%Q, 0%Q, 0%Q, 0%Q).

(** The share of the positions whose label passes [keep] at which the
    prediction has the class of the label; 0 when no label passes. *)
Definition accuracy_where (keep : Row Q -> bool) (y_true y_pred : list (Row Q))
  : Q :=
  let kept := filter (fun tp => keep (fst tp)) (combine y_true y_pred) in
  let errors :=
    map (fun tp => if row_argmax (fst tp) =? row_argmax (snd tp)
                   then 1%Q else 0%Q) kept in
  if len errors =? 0 then 0%Q else mean errors.
End Accuracy.

(** * Properties *)

(** ** Coordinate resolution *)

Lemma start_end_strand_plus {F} (cb : ContiguousBit) (cs ss : Z) (ph : PreHint F) :
  is_plus_strand cb = true ->
  start_end_strand cb cs ss ph
  = (cs + ss + start ph + 1, cs + ss + end_ ph, "+"%string).
Proof. intros Hs. unfold start_end_strand. rewrite Hs. reflexivity. Qed.

Lemma start_end_strand_minus {F} (cb : ContiguousBit) (cs ss : Z) (ph : PreHint F) :
  is_plus_strand cb = false ->
  start_end_strand cb cs ss ph
  = (cs - ss - end_ ph, cs - ss - start ph + 1, "-"%string).
Proof. intros Hs. unfold start_end_strand. rewrite Hs. reflexivity. Qed.

(** C1: on the forward strand the emitted coordinates are
    gff_start = chunk_start + subregion_start + prehint.start + 1 and
    gff_end = chunk_start + subregion_start + prehint.end, with strand '+';
    with chunk start 1000, sub-region offset 5 and pre-hint [2,8) the
    output is (1008, 1013). *)
Theorem forward_strand_coordinates :
  forall (F : Type) (contiguous_bit : ContiguousBit)
         (chunk_start subregion_start : Z) (pre_hint : PreHint F),
    is_plus_strand contiguous_bit = true ->
    start_end_strand contiguous_bit chunk_start subregion_start pre_hint
    = (chunk_start + subregion_start + start pre_hint + 1,
       chunk_start + subregion_start + end_ pre_hint,
       "+"%string)
    /\ (chunk_start = 1000 -> subregion_start = 5 ->
        start pre_hint = 2 -> end_ pre_hint = 8 ->
        start_end_strand contiguous_bit chunk_start subregion_start pre_hint
        = (1008, 1013, "+"%string)).
Proof.
  intros F cb cs ss ph Hs. split.
  - now apply start_end_strand_plus.
  - intros -> -> Hst Hen. rewrite start_end_strand_plus by assumption.
    rewrite Hst, Hen. reflexivity.
Qed.

Lemma forward_strand_coordinates_witness :
  start_end_strand (mkContiguousBit "chr1" 0 20000 true) 1000 5
    (mkPreHint 0 2 8 (95 # 100)%Q)
  = (1008, 1013, "+"%string).
Proof.
  apply (proj2 (forward_strand_coordinates Q
                  (mkContiguousBit "chr1" 0 20000 true) 1000 5
                  (mkPreHint 0 2 8 (95 # 100)%Q) eq_refl));
    reflexivity.
Defined.

(** C2: on the reverse strand the sub-region offset and the pre-hint's
    start and end are subtracted from chunk_start, 1 is added to the raw
    start only, and the two values are swapped, so that the published
    interval has start <= end; the strand is '-'. *)
Theorem reverse_strand_coordinates :
  forall (F : Type) (contiguous_bit : ContiguousBit)
         (chunk_start subregion_start : Z) (pre_hint : PreHint F),
    is_plus_strand contiguous_bit = false ->
    let raw_start := chunk_start - subregion_start - start pre_hint in
    let raw_end := chunk_start - subregion_start - end_ pre_hint in
    let r := start_end_strand contiguous_bit chunk_start subregion_start pre_hint in
    r = (raw_end, raw_start + 1, "-"%string)
    /\ (start pre_hint < end_ pre_hint ->
        fst (gff_span r) <= snd (gff_span r)).
Proof.
  intros F cb cs ss ph Hs raw_start raw_end r. subst r raw_start raw_end.
  rewrite start_end_strand_minus by assumption. split; [reflexivity|].
  cbn. lia.
Qed.

Lemma reverse_strand_coordinates_witness :
  start_end_strand (mkContiguousBit "chr1" 0 20000 false) 1000 5
    (mkPreHint 0 2 8 (95 # 100)%Q)
  = (987, 994, "-"%string)
  /\ 987 <= 994.
Proof.
  pose proof (reverse_strand_coordinates Q
                (mkContiguousBit "chr1" 0 20000 false) 1000 5
                (mkPreHint 0 2 8 (95 # 100)%Q) eq_refl) as W.
  cbn in W. destruct W as [W1 W2].
  split; [exact W1 | apply W2; lia].
Defined.

(** C3: a pre-hint of a forward-strand chunk and the corresponding pre-hint of
    the strand-flipped mirror (rows reversed, strand flag flipped) should
    resolve to the same span with opposite strand labels.  The labels are
    opposite, but the span of the mirror is two base pairs wider than the
    forward one, one on each side: whatever offsets the mirrored chunk and
    sub-region are given, the two spans differ. *)
Theorem strand_mirror_spans_differ :
  forall (F : Type) (contiguous_bit : ContiguousBit)
         (chunk_start subregion_start : Z) (pre_hint : PreHint F)
         (region_len mirror_chunk_start mirror_subregion_start : Z),
    is_plus_strand contiguous_bit = true ->
    let fwd := start_end_strand contiguous_bit chunk_start subregion_start pre_hint in
    let rev := start_end_strand (flip_strand contiguous_bit)
                 mirror_chunk_start mirror_subregion_start
                 (mirror_pre_hint region_len pre_hint) in
    gff_strand fwd = "+"%string /\ gff_strand rev = "-"%string
    /\ gff_width fwd = end_ pre_hint - start pre_hint
    /\ gff_width rev = end_ pre_hint - start pre_hint + 2
    /\ gff_span rev <> gff_span fwd.
Proof.
  intros F cb cs ss ph m cs' ss' Hs fwd rev. subst fwd rev.
  rewrite start_end_strand_plus by assumption.
  rewrite start_end_strand_minus by (cbn; rewrite Hs; reflexivity).
  cbn. repeat split; try lia.
  intros Heq. injection Heq as H1 H2. lia.
Qed.

Lemma strand_mirror_spans_differ_witness :
  gff_span (start_end_strand (mkContiguousBit "chr1" 0 20 true) 1000 5
              (mkPreHint 0 2 8 (95 # 100)%Q)) = (1008, 1013)
  /\ gff_span (start_end_strand (mkContiguousBit "chr1" 0 20 false) 1020 5
                 (mkPreHint 0 2 8 (95 # 100)%Q)) = (1007, 1014)
  /\ gff_span (start_end_strand
                 (flip_strand (mkContiguousBit "chr1" 0 20 true)) 1020 5
                 (mirror_pre_hint 10 (mkPreHint 0 2 8 (95 # 100)%Q)))
     <> gff_span (start_end_strand (mkContiguousBit "chr1" 0 20 true) 1000 5
                    (mkPreHint 0 2 8 (95 # 100)%Q)).
Proof.
  split; [reflexivity | split; [reflexivity |]].
  apply (strand_mirror_spans_differ Q (mkContiguousBit "chr1" 0 20 true)
           1000 5 (mkPreHint 0 2 8 (95 # 100)%Q) 10 1020 5 eq_refl).
Defined.

(** What [start_end_strand] gives by itself, for a pre-hint with
    start < end: gff_start <= gff_end on both strands; on the forward
    strand both are >= 1 when the offsets are not negative; on the reverse
    strand both are >= 1 exactly when chunk_start exceeds
    subregion_start + prehint.end. *)
Lemma gff_coordinates_ordered :
  forall (F : Type) (contiguous_bit : ContiguousBit)
         (chunk_start subregion_start : Z) (pre_hint : PreHint F),
    start pre_hint < end_ pre_hint ->
    let r := start_end_strand contiguous_bit chunk_start subregion_start pre_hint in
    let gff_start' := fst (gff_span r) in
    let gff_end' := snd (gff_span r) in
    gff_start' <= gff_end'
    /\ (is_plus_strand contiguous_bit = true ->
        0 <= chunk_start -> 0 <= subregion_start -> 0 <= start pre_hint ->
        1 <= gff_start' /\ 1 <= gff_end')
    /\ (is_plus_strand contiguous_bit = false ->
        (1 <= gff_start' /\ 1 <= gff_end'
         <-> subregion_start + end_ pre_hint < chunk_start)).
Proof.
  intros F cb cs ss ph Hlt r gs ge. subst gs ge r.
  destruct (is_plus_strand cb) eqn:Hs.
  - rewrite start_end_strand_plus by assumption. cbn.
    repeat split; try lia; discriminate.
  - rewrite start_end_strand_minus by assumption. cbn.
    repeat split; try lia; try discriminate.
Qed.

(** ** The splitting of a sub-region *)

Lemma getitem_in_range {A} (l : list A) (i : Z) :
  0 <= i < len l -> exists a, getitem l i = inr a.
Proof.
  intros Hi. unfold getitem.
  assert (E1 : (i <? 0) = false) by (apply Z.ltb_ge; lia).
  rewrite E1, E1.
  assert (E2 : (len l <=? i) = false) by (apply Z.leb_gt; lia).
  rewrite E2. cbn.
  destruct (nth_error l (Z.to_nat i)) as [a|] eqn:E.
  - now exists a.
  - apply nth_error_None in E. unfold len in Hi. lia.
Qed.

Lemma getitem_out_of_range {A} (l : list A) (i : Z) :
  len l <= i -> getitem l i = inl (IndexError i (len l)).
Proof.
  intros Hi. unfold getitem.
  assert (E0 : 0 <= len l) by (unfold len; lia).
  assert (E1 : (i <? 0) = false) by (apply Z.ltb_ge; lia).
  rewrite E1, E1.
  assert (E2 : (len l <=? i) = true) by (apply Z.leb_le; lia).
  rewrite E2. reflexivity.
Qed.

Lemma len_map {A B} (f : A -> B) (l : list A) : len (map f l) = len l.
Proof. unfold len. now rewrite length_map. Qed.

Lemma length_map2 {A B C} (f : A -> B -> C) (l : list A) (l' : list B) :
  List.length (map2 f l l') = Nat.min (List.length l) (List.length l').
Proof.
  revert l'. induction l as [|a l IH]; intros [|b l']; cbn; auto.
Qed.

Section NumpyFacts.
Context {F : Type} `{Scalar F}.

Lemma length_cumsum_from (acc : F) (l : list F) :
  List.length (cumsum_from acc l) = List.length l.
Proof. revert acc. induction l as [|x t IH]; intros acc; cbn; auto. Qed.

Lemma len_cumsum (l : list F) : len (cumsum l) = len l.
Proof.
  unfold len. destruct l as [|x t]; cbn; [reflexivity|].
  now rewrite length_cumsum_from.
Qed.

Lemma len_abs_diffs (col : list F) :
  col <> [] -> len (abs_diffs col) = len col - 1.
Proof.
  intros Hne. unfold abs_diffs, len. rewrite length_map2.
  destruct col as [|x t]; [congruence|].
  rewrite removelast_firstn_len, length_firstn. cbn [List.length tl].
  lia.
Qed.

Lemma argmax_row (r : Row F) :
  exists c, argmax (row_list r) = inr c /\ 0 <= c <= 3.
Proof.
  destruct r as [[[a b] c] d]. cbn.
  destruct (f_gt b a); destruct (f_gt c _); destruct (f_gt d _);
    eexists; (split; [reflexivity | lia]).
Qed.

Lemma column_in_range (chunk : list (Row F)) (c : Z) :
  0 <= c <= 3 ->
  exists col, column chunk c = inr col /\ len col = len chunk.
Proof.
  intros Hc. destruct chunk as [|r chunk'].
  - exists []. split; reflexivity.
  - unfold column.
    destruct (getitem_in_range (row_list r) c) as [x Hx].
    { destruct r as [[[a b] c'] d]. cbn. lia. }
    rewrite Hx. cbn [bind]. eexists. split; [reflexivity|].
    apply len_map.
Qed.
End NumpyFacts.

Lemma candidate_below (a s j j0 : Z) :
  0 < s -> a + j * s < a + (j0 + 1) * s -> a + j * s <= a + j0 * s.
Proof.
  intros Hs Hlt.
  assert (Hj : j <= j0).
  { destruct (Z_le_gt_dec j j0) as [Hle|Hgt]; [exact Hle|].
    assert ((j0 + 1) * s <= j * s) by (apply Z.mul_le_mono_nonneg_r; lia).
    lia. }
  assert (j * s <= j0 * s) by (apply Z.mul_le_mono_nonneg_r; lia).
  lia.
Qed.

Section DivvyLoopFacts.
Context {F : Type} `{Scalar F}.
Variables (col cum : list F) (main_class min_step max_size : Z).
Variables (thr : F) (padded_seq_end pad : Z).
Hypothesis min_step_pos : 0 < min_step.
Hypothesis pad_nonneg : 0 <= pad.
Hypothesis end_in_bounds : padded_seq_end < len cum.

Local Abbreviation loop :=
  (divvy_loop col cum main_class min_step max_size thr padded_seq_end).

Lemma divvy_loop_S (k : nat) (i eoly : Z) (cdly : F) :
  loop (S k) i eoly cdly
  = match getitem cum (Z.min (i + min_step) padded_seq_end) with
    | inl e => raised e
    | inr cd =>
        if f_gt (f_sub cd cdly) thr
           || (max_size <? Z.min (i + min_step) padded_seq_end - eoly)
           || (Z.min (i + min_step) padded_seq_end =? padded_seq_end)
        then
          yield_then
            {| category := main_class;
               start := eoly;
               end_ := Z.min (i + min_step) padded_seq_end;
               confidence :=
                 mean (slice col eoly (Z.min (i + min_step) padded_seq_end)) |}
            (loop k (i + min_step) (Z.min (i + min_step) padded_seq_end) cd)
        else loop k (i + min_step) eoly cdly
    end.
Proof. reflexivity. Qed.

(** The loop, entered with [S k] iterations left at [i = pad + j0 * min_step],
    returns normally; what it yields tiles the rest of the padded region
    from the end of the last yield, and every pre-hint was closed by the
    test of the loop and not before. *)
Lemma divvy_loop_spec :
  forall (k : nat) (j0 eoly : Z) (cdly : F),
    0 <= j0 ->
    pad <= eoly <= pad + j0 * min_step ->
    cdly = item_or f_zero cum eoly ->
    pad + j0 * min_step + Z.of_nat k * min_step < padded_seq_end
      <= pad + j0 * min_step + (Z.of_nat k + 1) * min_step ->
    (forall j, eoly < pad + j * min_step <= pad + j0 * min_step ->
               f_gt (volatility cum eoly (pad + j * min_step)) thr = false
               /\ pad + j * min_step - eoly <= max_size) ->
    exists ys,
      loop (S k) (pad + j0 * min_step) eoly cdly = (ys, None)
      /\ tiling eoly ys padded_seq_end
      /\ Forall (hint_ok cum main_class min_step max_size thr
                           padded_seq_end pad) ys.
Proof.
  induction k as [|k IH]; intros j0 eoly cdly Hj0 He Hcd Hk Hq.
  - (* last iteration: the candidate is the padded end *)
    change (Z.of_nat 0) with 0 in Hk.
    assert (Em : Z.min (pad + j0 * min_step + min_step) padded_seq_end
                 = padded_seq_end) by lia.
    destruct (getitem_in_range cum padded_seq_end) as [cd Hg]; [nia|].
    rewrite divvy_loop_S, Em, Hg.
    rewrite Z.eqb_refl, !orb_true_r.
    cbn [divvy_loop yield_then fst snd].
    eexists. split; [reflexivity|]. split.
    + apply (tiling_last (mkPreHint main_class eoly padded_seq_end _)).
      cbn. nia.
    + constructor; [|constructor]. split; [|split].
      * right. right. reflexivity.
      * intros j Hj. cbn in Hj |- *. apply Hq.
        split; [lia|]. apply candidate_below; lia.
      * reflexivity.
  - (* an inner iteration: the candidate is i + min_step *)
    rewrite Nat2Z.inj_succ in Hk.
    assert (Em : Z.min (pad + j0 * min_step + min_step) padded_seq_end
                 = pad + (j0 + 1) * min_step) by nia.
    destruct (getitem_in_range cum (pad + (j0 + 1) * min_step)) as [cd Hg];
      [nia|].
    assert (Ei : pad + j0 * min_step + min_step = pad + (j0 + 1) * min_step)
      by lia.
    rewrite divvy_loop_S, Em, Hg, Ei.
    destruct (f_gt (f_sub cd cdly) thr
              || (max_size <? pad + (j0 + 1) * min_step - eoly)
              || (pad + (j0 + 1) * min_step =? padded_seq_end)) eqn:Etest.
    + (* yield *)
      destruct (IH (j0 + 1) (pad + (j0 + 1) * min_step) cd) as (ys & Hys & Ht & Hf).
      * lia.
      * nia.
      * unfold item_or. now rewrite Hg.
      * nia.
      * intros j Hj. lia.
      * rewrite Hys. cbn [yield_then fst snd].
        eexists. split; [reflexivity|]. split.
        -- apply (tiling_cons (mkPreHint main_class eoly _ _)); cbn; [nia|].
           exact Ht.
        -- constructor; [|exact Hf]. split; [|split].
           ++ unfold closes. cbn [start end_].
              apply orb_true_iff in Etest as [Etest|Etest];
                [apply orb_true_iff in Etest as [Etest|Etest]|].
              ** left. unfold volatility. rewrite <- Hcd.
                 unfold item_or. rewrite Hg. exact Etest.
              ** right. left. now apply Z.ltb_lt in Etest.
              ** right. right. now apply Z.eqb_eq in Etest.
           ++ intros j Hj. cbn in Hj |- *. apply Hq.
              split; [lia|]. apply candidate_below; lia.
           ++ reflexivity.
    + (* no yield *)
      apply orb_false_iff in Etest as [Etest _].
      apply orb_false_iff in Etest as [Ev Em'].
      apply Z.ltb_ge in Em'.
      destruct (IH (j0 + 1) eoly cdly) as (ys & Hys & Ht & Hf).
      * lia.
      * nia.
      * exact Hcd.
      * nia.
      * intros j Hj.
        destruct (Z.eq_dec j (j0 + 1)) as [->|Hne].
        -- split; [|lia]. unfold volatility. rewrite <- Hcd.
           unfold item_or. rewrite Hg. exact Ev.
        -- apply Hq. nia.
      * exists ys. auto.
Qed.
End DivvyLoopFacts.

(** ** What a tiling gives *)

Section TilingFacts.
Context {F : Type}.
Implicit Types (p q : PreHint F) (ys : list (PreHint F)).

Lemma tiling_lt a ys b : tiling a ys b -> a < b.
Proof. induction 1; lia. Qed.

Lemma tiling_head a ys b :
  tiling a ys b -> exists p ps, ys = p :: ps /\ start p = a.
Proof. destruct 1; eauto. Qed.

Lemma tiling_last_end a ys b :
  tiling a ys b -> forall d, end_ (last ys d) = b.
Proof.
  induction 1 as [p Hp | p ps b Hp Ht IH]; intros d; [reflexivity|].
  destruct ps as [|q ps']; [inversion Ht|].
  change (last (p :: q :: ps') d) with (last (q :: ps') d). apply IH.
Qed.

Lemma tiling_bounds a ys b :
  tiling a ys b ->
  forall p, In p ys -> a <= start p /\ start p < end_ p /\ end_ p <= b.
Proof.
  induction 1 as [p Hp | p ps b Hp Ht IH]; intros q Hq.
  - destruct Hq as [<-|[]]. lia.
  - destruct Hq as [<-|Hq].
    + apply tiling_lt in Ht. lia.
    + specialize (IH q Hq). lia.
Qed.

Lemma tiling_adjacent a ys b :
  tiling a ys b ->
  forall (i : nat) p q,
    nth_error ys i = Some p -> nth_error ys (S i) = Some q ->
    start q = end_ p.
Proof.
  induction 1 as [p Hp | p ps b Hp Ht IH]; intros i p' q Hi HSi.
  - destruct i; cbn in HSi; discriminate.
  - destruct i as [|i].
    + cbn in Hi. injection Hi as <-. cbn in HSi.
      destruct (tiling_head _ _ _ Ht) as (q' & ps' & -> & Hq').
      cbn in HSi. injection HSi as <-. exact Hq'.
    + cbn in Hi. apply (IH i p' q Hi). exact HSi.
Qed.

Lemma tiling_disjoint a ys b :
  tiling a ys b ->
  forall (i j : nat) p q,
    (i < j)%nat -> nth_error ys i = Some p -> nth_error ys j = Some q ->
    end_ p <= start q.
Proof.
  induction 1 as [p Hp | p ps b Hp Ht IH]; intros i j p' q Hij Hi Hj.
  - destruct j as [|j]; [lia|]. destruct j; cbn in Hj; discriminate.
  - destruct j as [|j]; [lia|]. cbn in Hj.
    destruct i as [|i].
    + cbn in Hi. injection Hi as <-.
      apply nth_error_In in Hj.
      pose proof (tiling_bounds _ _ _ Ht q Hj). lia.
    + cbn in Hi. apply (IH i j p' q); [lia|assumption|assumption].
Qed.

Lemma tiling_cover a ys b :
  tiling a ys b ->
  forall x, a <= x < b -> exists p, In p ys /\ start p <= x < end_ p.
Proof.
  induction 1 as [p Hp | p ps b Hp Ht IH]; intros x Hx.
  - exists p. split; [now left | lia].
  - destruct (Z_lt_ge_dec x (end_ p)) as [Hlt|Hge].
    + exists p. split; [now left | lia].
    + destruct (IH x) as (q & Hq & Hxq); [lia|].
      exists q. split; [now right | exact Hxq].
Qed.
End TilingFacts.

(** ** [range] *)

Lemma range_len_positive (a b s : Z) :
  0 < s -> a < b ->
  exists k : nat,
    range_len a b s = inr (S k)
    /\ a + Z.of_nat k * s < b <= a + (Z.of_nat k + 1) * s.
Proof.
  intros Hs Hab. unfold range_len.
  assert (E0 : (s =? 0) = false) by (apply Z.eqb_neq; lia).
  assert (E1 : (0 <? s) = true) by (apply Z.ltb_lt; lia).
  assert (E2 : (a <? b) = true) by (apply Z.ltb_lt; lia).
  rewrite E0, E1, E2.
  set (q := (b - a - 1) / s).
  assert (Hq : 0 <= q) by (apply Z.div_pos; lia).
  pose proof (Z.div_mod (b - a - 1) s ltac:(lia)) as Hdm.
  pose proof (Z.mod_pos_bound (b - a - 1) s Hs) as Hm.
  fold q in Hdm.
  exists (Z.to_nat q). split.
  - unfold ret. f_equal. rewrite Z2Nat.inj_add by lia. cbn. lia.
  - rewrite Z2Nat.id by lia. lia.
Qed.

Lemma range_len_empty (a b s : Z) :
  0 < s -> b <= a -> range_len a b s = inr O.
Proof.
  intros Hs Hab. unfold range_len.
  assert (E0 : (s =? 0) = false) by (apply Z.eqb_neq; lia).
  assert (E1 : (0 <? s) = true) by (apply Z.ltb_lt; lia).
  assert (E2 : (a <? b) = false) by (apply Z.ltb_ge; lia).
  now rewrite E0, E1, E2.
Qed.

(** ** [divvy_by_confidence] *)

Section DivvyFacts.
Context {F : Type} `{Scalar F}.

(** Before its loop [divvy_by_confidence] picks the class, its policy and the
    cumulative differences, which are one fewer than the rows. *)
Lemma divvy_setup (chunk : list (Row F)) (key : list (Z * Z)) (pad : Z)
    (thr : F) (min_step max_size : Z) :
  policy chunk key = inr (min_step, max_size) ->
  exists main_class col,
    dominant_class chunk = inr main_class
    /\ len (cumulative_diffs chunk) = len chunk - 1
    /\ divvy_by_confidence chunk key pad thr
       = gen_of_result (
           cdiff <- getitem (cumulative_diffs chunk) pad ;;
           k <- range_len pad (len chunk - pad) min_step ;;
           ret (divvy_loop col (cumulative_diffs chunk) main_class
                  min_step max_size thr (len chunk - pad) k pad pad cdiff)).
Proof.
  intros Hp. unfold policy, dominant_class in Hp.
  unfold cumulative_diffs, divvy_by_confidence, dominant_class.
  destruct (getitem chunk 0) as [e|row0] eqn:E0; [discriminate|].
  cbn [bind] in *.
  destruct (argmax_row row0) as (mc & Hmc & Hr).
  rewrite Hmc in *. cbn [bind] in *. rewrite Hp. cbn [bind].
  destruct (column_in_range chunk mc Hr) as (col & Hcol & Hlen).
  rewrite Hcol. cbn [bind].
  exists mc, col. split; [reflexivity|]. split; [|reflexivity].
  rewrite len_cumsum, len_abs_diffs, Hlen; [reflexivity|].
  intros ->. destruct chunk; [discriminate E0|discriminate Hlen].
Qed.

(** With a padding of at least 2 and a positive step the generator returns
    normally, and its pre-hints tile [pad, n - pad). *)
Lemma divvy_by_confidence_spec (chunk : list (Row F)) (key : list (Z * Z))
    (pad : Z) (thr : F) (min_step max_size : Z) :
  2 <= pad -> 2 * pad < len chunk ->
  policy chunk key = inr (min_step, max_size) -> 0 < min_step ->
  exists main_class ys,
    dominant_class chunk = inr main_class
    /\ divvy_by_confidence chunk key pad thr = (ys, None)
    /\ tiling pad ys (len chunk - pad)
    /\ Forall (hint_ok (cumulative_diffs chunk) main_class min_step max_size
                 thr (len chunk - pad) pad) ys.
Proof.
  intros Hpad Hn Hp Hs.
  destruct (divvy_setup chunk key pad thr min_step max_size Hp)
    as (mc & col & Hmc & Hlen & Heq).
  destruct (getitem_in_range (cumulative_diffs chunk) pad) as [c0 Hc0]; [lia|].
  destruct (range_len_positive pad (len chunk - pad) min_step) as (k & Hk & Hb);
    [lia|lia|].
  rewrite Hc0, Hk in Heq. cbn [bind ret gen_of_result] in Heq.
  assert (Hpad0 : 0 <= pad) by lia.
  assert (Hin : len chunk - pad < len (cumulative_diffs chunk)) by lia.
  destruct (divvy_loop_spec col (cumulative_diffs chunk) mc min_step max_size
              thr (len chunk - pad) pad Hs Hpad0 Hin
              k 0 pad c0) as (ys & Hys & Ht & Hf).
  - lia.
  - lia.
  - unfold item_or. now rewrite Hc0.
  - lia.
  - intros j Hj. lia.
  - exists mc, ys. replace (pad + 0 * min_step) with pad in Hys by lia.
    rewrite Heq, Hys. auto.
Qed.

(** A sub-region of exactly [2 * pad] rows: the range of the loop is empty. *)
Lemma divvy_by_confidence_empty (chunk : list (Row F)) (key : list (Z * Z))
    (pad : Z) (thr : F) (min_step max_size : Z) :
  2 <= pad -> len chunk = 2 * pad ->
  policy chunk key = inr (min_step, max_size) -> 0 < min_step ->
  divvy_by_confidence chunk key pad thr = ([], None).
Proof.
  intros Hpad Hn Hp Hs.
  destruct (divvy_setup chunk key pad thr min_step max_size Hp)
    as (mc & col & Hmc & Hlen & Heq).
  destruct (getitem_in_range (cumulative_diffs chunk) pad) as [c0 Hc0]; [lia|].
  rewrite Heq, Hc0, range_len_empty by lia. reflexivity.
Qed.
End DivvyFacts.

(** Where the Divvier returns, that is with a padding of at least 2 and a
    positive minimum step, the pre-hints it yields from a sub-region of
    n > 2 * pad rows come in increasing order and are pairwise disjoint,
    each starts exactly where the previous one ends, the first starts at
    pad and the last ends at n - pad, so that they cover [pad, n - pad)
    with no gaps and no overlaps; the generator returns normally. *)
Theorem pre_hints_tile_padded_region :
  forall (F : Type) (num : Scalar F) (chunk : list (Row F)) (key : list (Z * Z))
         (pad : Z) (thr : F) (min_step max_size : Z),
    2 <= pad -> 2 * pad < len chunk ->
    policy chunk key = inr (min_step, max_size) -> 0 < min_step ->
    let n := len chunk in
    let g := divvy_by_confidence chunk key pad thr in
    let ys := fst g in
    snd g = None
    /\ (exists p ps, ys = p :: ps /\ start p = pad)
    /\ (forall d, end_ (last ys d) = n - pad)
    /\ (forall p, In p ys -> pad <= start p /\ start p < end_ p /\ end_ p <= n - pad)
    /\ (forall (i : nat) p q,
          nth_error ys i = Some p -> nth_error ys (S i) = Some q ->
          start q = end_ p)
    /\ (forall (i j : nat) p q,
          (i < j)%nat -> nth_error ys i = Some p -> nth_error ys j = Some q ->
          end_ p <= start q)
    /\ (forall x, pad <= x < n - pad ->
                  exists p, In p ys /\ start p <= x < end_ p).
Proof.
  intros F num chunk key pad thr min_step max_size Hpad Hn Hp Hs n g ys.
  destruct (divvy_by_confidence_spec chunk key pad thr min_step max_size
              Hpad Hn Hp Hs) as (mc & zs & _ & Hg & Ht & _).
  subst ys g n. rewrite Hg. cbn [fst snd].
  split; [reflexivity|].
  split; [exact (tiling_head _ _ _ Ht)|].
  split; [exact (tiling_last_end _ _ _ Ht)|].
  split; [exact (tiling_bounds _ _ _ Ht)|].
  split; [exact (tiling_adjacent _ _ _ Ht)|].
  split; [exact (tiling_disjoint _ _ _ Ht)|].
  exact (tiling_cover _ _ _ Ht).
Qed.

Lemma pre_hints_tile_padded_region_witness :
  snd (divvy_by_confidence volatile_chunk example_key 5 (1 # 10)%Q) = None
  /\ (forall d, end_ (last (fst (divvy_by_confidence volatile_chunk example_key
                                   5 (1 # 10)%Q)) d) = 30 - 5).
Proof.
  assert (H1 : 2 <= 5) by lia.
  assert (H2 : 2 * 5 < len volatile_chunk) by (vm_compute; reflexivity).
  assert (H3 : policy volatile_chunk example_key = inr (10, 20)) by reflexivity.
  assert (H4 : 0 < 10) by lia.
  pose proof (pre_hints_tile_padded_region Q Q_Scalar volatile_chunk example_key
                5 (1 # 10)%Q 10 20 H1 H2 H3 H4) as W.
  split; [exact (proj1 W) | exact (proj1 (proj2 (proj2 W)))].
Defined.

(** C5: the pre-hints of a sub-region of n > 2 * pad rows should tile
    [pad, n - pad).  With a padding of 1 they do not: on 30 volatile rows
    the Divvier yields [1,11) and [11,21) and then reads
    [cumulative_diffs[29]], which does not exist (there are 29 entries); the
    generator ends with [IndexError], the last pre-hint does not end at 29
    and nothing covers [21, 29). *)
Theorem pre_hints_not_tiled_with_padding_1 :
  let pad := 1 in
  let g := divvy_by_confidence volatile_chunk example_key pad (1 # 10)%Q in
  2 * pad < len volatile_chunk
  /\ map (fun p => (start p, end_ p)) (fst g) = [(1, 11); (11, 21)]
  /\ snd g = Some (IndexError 29 29)
  /\ ~ (forall d, end_ (last (fst g) d) = len volatile_chunk - pad)
  /\ ~ (forall x, pad <= x < len volatile_chunk - pad ->
                  exists p, In p (fst g) /\ start p <= x < end_ p).
Proof.
  cbv zeta.
  assert (E : exists c1 c2,
             divvy_by_confidence volatile_chunk example_key 1 (1 # 10)%Q
             = ([mkPreHint 0 1 11 c1; mkPreHint 0 11 21 c2],
                Some (IndexError 29 29))).
  { do 2 eexists. vm_compute. reflexivity. }
  destruct E as (c1 & c2 & E). rewrite E. cbn [fst snd map start end_].
  split; [vm_compute; reflexivity|].
  split; [reflexivity|]. split; [reflexivity|]. split.
  - intros Hl. specialize (Hl (mkPreHint 0 0 0 0%Q)). vm_compute in Hl. discriminate.
  - intros Hc. destruct (Hc 25) as (p & Hp & Hx); [vm_compute; split; congruence|].
    destruct Hp as [<-|[<-|[]]]; cbn in Hx; lia.
Qed.

(** C6, as the code has it: for two consecutive pre-hints p, q that the
    Divvier yields from a sub-region (pad >= 2, positive step), the volatility
    the loop measures, cumulative_diffs[c] - cumulative_diffs[p.start], does
    not exceed stability_threshold at any candidate boundary c strictly
    inside p, where also c - p.start <= max_size; at the end of p it exceeds
    stability_threshold, or the length of p exceeds max_size. *)
Theorem pre_hint_closed_at_first_passing_boundary :
  forall (F : Type) (num : Scalar F) (chunk : list (Row F)) (key : list (Z * Z))
         (pad : Z) (thr : F) (min_step max_size : Z),
    2 <= pad -> 2 * pad < len chunk ->
    policy chunk key = inr (min_step, max_size) -> 0 < min_step ->
    let cum := cumulative_diffs chunk in
    let ys := fst (divvy_by_confidence chunk key pad thr) in
    forall (i : nat) (p q : PreHint F),
      nth_error ys i = Some p -> nth_error ys (S i) = Some q ->
      (forall j : Z,
          start p < pad + j * min_step < end_ p ->
          f_gt (volatility cum (start p) (pad + j * min_step)) thr = false
          /\ pad + j * min_step - start p <= max_size)
      /\ (f_gt (volatility cum (start p) (end_ p)) thr = true
          \/ max_size < end_ p - start p).
Proof.
  intros F num chunk key pad thr min_step max_size Hpad Hn Hp Hs cum ys i p q Hi HSi.
  destruct (divvy_by_confidence_spec chunk key pad thr min_step max_size
              Hpad Hn Hp Hs) as (mc & zs & _ & Hg & Ht & Hf).
  subst ys cum. rewrite Hg in Hi, HSi. cbn [fst] in Hi, HSi.
  pose proof (tiling_adjacent _ _ _ Ht i p q Hi HSi) as Hadj.
  pose proof (tiling_bounds _ _ _ Ht q (nth_error_In _ _ HSi)) as Hq.
  rewrite Forall_forall in Hf.
  destruct (Hf p (nth_error_In _ _ Hi)) as (Hc & Hquiet & _).
  split; [exact Hquiet|].
  destruct Hc as [Hc|[Hc|Hc]]; [now left | now right | lia].
Qed.

Lemma pre_hint_closed_at_first_passing_boundary_witness :
  exists p q : PreHint Q,
    nth_error (fst (divvy_by_confidence volatile_chunk example_key 5 (1 # 10)%Q)) 0
    = Some p
    /\ nth_error (fst (divvy_by_confidence volatile_chunk example_key 5 (1 # 10)%Q)) 1
       = Some q
    /\ (f_gt (volatility (cumulative_diffs volatile_chunk) (start p) (end_ p))
          (1 # 10)%Q = true
        \/ 20 < end_ p - start p).
Proof.
  assert (H1 : 2 <= 5) by lia.
  assert (H2 : 2 * 5 < len volatile_chunk) by (vm_compute; reflexivity).
  assert (H3 : policy volatile_chunk example_key = inr (10, 20)) by reflexivity.
  assert (H4 : 0 < 10) by lia.
  assert (E : exists p q,
             nth_error (fst (divvy_by_confidence volatile_chunk example_key
                               5 (1 # 10)%Q)) 0 = Some p
             /\ nth_error (fst (divvy_by_confidence volatile_chunk example_key
                                  5 (1 # 10)%Q)) 1 = Some q).
  { do 2 eexists. split; vm_compute; reflexivity. }
  destruct E as (p & q & Ep & Eq).
  exists p, q. split; [exact Ep|]. split; [exact Eq|].
  exact (proj2 (pre_hint_closed_at_first_passing_boundary Q Q_Scalar
                  volatile_chunk example_key 5 (1 # 10)%Q 10 20 H1 H2 H3 H4
                  0%nat p q Ep Eq)).
Defined.

(** C6 as stated fails: on 30 rows whose dominant probability alternates
    between 0.9 and 0.5 (pad 5, step 10, max size 20, threshold 0.1) the
    Divvier yields [5,15) and [15,25); across the earlier one the
    probability changes by 3.6 in total, more than the threshold, and its
    length 10 has not reached the max size 20. *)
Lemma volatility_bound_counterexample :
  let thr := (1 # 10)%Q in
  let ys := fst (divvy_by_confidence volatile_chunk example_key 5 thr) in
  let col := map (fun r : Row Q => fst (fst (fst r))) volatile_chunk in
  dominant_class volatile_chunk = inr 0
  /\ policy volatile_chunk example_key = inr (10, 20)
  /\ map (fun p => (start p, end_ p)) ys = [(5, 15); (15, 25)]
  /\ exists p q : PreHint Q,
       nth_error ys 0 = Some p /\ nth_error ys 1 = Some q
       /\ (span_change col (start p) (end_ p) == 36 # 10)%Q
       /\ ~ ((span_change col (start p) (end_ p) <= thr)%Q
             \/ 20 <= end_ p - start p).
Proof.
  cbv zeta. split; [reflexivity|]. split; [reflexivity|].
  split; [vm_compute; reflexivity|].
  do 2 eexists. split; [vm_compute; reflexivity|].
  split; [vm_compute; reflexivity|].
  split; [vm_compute; reflexivity|].
  intros [Hv|Hl].
  - vm_compute in Hv. apply Hv. reflexivity.
  - vm_compute in Hl. apply Hl. reflexivity.
Qed.

(** ** The boundary lengths *)

Lemma tiling_unit {F} (a : Z) (ys : list (PreHint F)) :
  tiling a ys (a + 1) -> exists p, ys = [p] /\ start p = a /\ end_ p = a + 1.
Proof.
  intros Ht. inversion Ht as [p Hp Ha Hys Hb | p ps b Hp Ht' Ha Hys Hb]; subst.
  - exists p. auto.
  - apply tiling_lt in Ht'. lia.
Qed.

(** C7: for every padding width pad >= 2 (and a positive minimum step), the
    Divvier yields no pre-hint from a sub-region of exactly 2 * pad rows,
    and exactly one, [pad, pad + 1), from one of 2 * pad + 1 rows. *)
Theorem boundary_lengths :
  forall (F : Type) (num : Scalar F) (chunk : list (Row F)) (key : list (Z * Z))
         (pad : Z) (thr : F) (min_step max_size : Z),
    2 <= pad ->
    policy chunk key = inr (min_step, max_size) -> 0 < min_step ->
    (len chunk = 2 * pad ->
     divvy_by_confidence chunk key pad thr = ([], None))
    /\ (len chunk = 2 * pad + 1 ->
        exists p, divvy_by_confidence chunk key pad thr = ([p], None)
                  /\ start p = pad /\ end_ p = pad + 1).
Proof.
  intros F num chunk key pad thr min_step max_size Hpad Hp Hs. split; intros Hn.
  - now apply (divvy_by_confidence_empty chunk key pad thr min_step max_size).
  - destruct (divvy_by_confidence_spec chunk key pad thr min_step max_size)
      as (mc & ys & _ & Hg & Ht & _); try assumption; [lia|].
    replace (len chunk - pad) with (pad + 1) in Ht by lia.
    destruct (tiling_unit pad ys Ht) as (p & -> & Hst & Hen).
    exists p. auto.
Qed.

Lemma boundary_lengths_witness :
  divvy_by_confidence (steady_chunk 10) example_key 5 (1 # 10)%Q = ([], None)
  /\ exists p, divvy_by_confidence (steady_chunk 11) example_key 5 (1 # 10)%Q
               = ([p], None)
               /\ start p = 5 /\ end_ p = 5 + 1.
Proof.
  assert (H1 : 2 <= 5) by lia.
  assert (H4 : 0 < 10) by lia.
  split.
  - assert (H3 : policy (steady_chunk 10) example_key = inr (10, 20))
      by reflexivity.
    apply (proj1 (boundary_lengths Q Q_Scalar (steady_chunk 10) example_key
                    5 (1 # 10)%Q 10 20 H1 H3 H4)).
    vm_compute. reflexivity.
  - assert (H3 : policy (steady_chunk 11) example_key = inr (10, 20))
      by reflexivity.
    apply (proj2 (boundary_lengths Q Q_Scalar (steady_chunk 11) example_key
                    5 (1 # 10)%Q 10 20 H1 H3 H4)).
    vm_compute. reflexivity.
Defined.

(** ** Accesses to [cumulative_diffs] *)

Section DivvyLoopOverrun.
Context {F : Type} `{Scalar F}.
Variables (col cum : list F) (main_class min_step max_size : Z).
Variables (thr : F) (padded_seq_end : Z).
Hypothesis min_step_pos : 0 < min_step.
Hypothesis end_out_of_bounds : len cum <= padded_seq_end.

(** When [cumulative_diffs] is too short for the padded end, the loop ends
    with the [IndexError] of the first candidate boundary outside it. *)
Lemma divvy_loop_overrun :
  forall (k : nat) (i eoly : Z) (cdly : F),
    0 <= i ->
    i + Z.of_nat k * min_step < padded_seq_end
      <= i + (Z.of_nat k + 1) * min_step ->
    exists ys idx,
      divvy_loop col cum main_class min_step max_size thr padded_seq_end
        (S k) i eoly cdly = (ys, Some (IndexError idx (len cum)))
      /\ len cum <= idx <= padded_seq_end.
Proof.
  induction k as [|k IH]; intros i eoly cdly Hi Hk.
  - change (Z.of_nat 0) with 0 in Hk.
    assert (Em : Z.min (i + min_step) padded_seq_end = padded_seq_end) by lia.
    rewrite divvy_loop_S, Em, getitem_out_of_range by assumption.
    exists [], padded_seq_end. split; [reflexivity|lia].
  - rewrite Nat2Z.inj_succ in Hk.
    assert (Em : Z.min (i + min_step) padded_seq_end = i + min_step) by nia.
    rewrite divvy_loop_S, Em.
    destruct (Z_le_gt_dec (len cum) (i + min_step)) as [Hout|Hin].
    + rewrite getitem_out_of_range by assumption.
      exists [], (i + min_step). split; [reflexivity|nia].
    + destruct (getitem_in_range cum (i + min_step)) as [cd Hg]; [lia|].
      rewrite Hg.
      destruct (f_gt (f_sub cd cdly) thr || (max_size <? i + min_step - eoly)
                || (i + min_step =? padded_seq_end)).
      * destruct (IH (i + min_step) (i + min_step) cd) as (ys & idx & Hys & Hidx);
          [lia|nia|].
        rewrite Hys. cbn [yield_then fst snd].
        do 2 eexists. split; [reflexivity|exact Hidx].
      * destruct (IH (i + min_step) eoly cdly) as (ys & idx & Hys & Hidx);
          [lia|nia|].
        rewrite Hys. do 2 eexists. split; [reflexivity|exact Hidx].
Qed.
End DivvyLoopOverrun.

Section DivvyOverrun.
Context {F : Type} `{Scalar F}.

(** With a padding of 0 or 1 the generator never returns normally: it ends
    with an [IndexError] on [cumulative_diffs], at an index from n - 1 to
    n - pad. *)
Lemma divvy_by_confidence_overrun (chunk : list (Row F)) (key : list (Z * Z))
    (pad : Z) (thr : F) (min_step max_size : Z) :
  0 <= pad <= 1 -> 2 * pad < len chunk ->
  policy chunk key = inr (min_step, max_size) -> 0 < min_step ->
  exists ys idx,
    divvy_by_confidence chunk key pad thr
    = (ys, Some (IndexError idx (len chunk - 1)))
    /\ len chunk - 1 <= idx <= len chunk - pad.
Proof.
  intros Hpad Hn Hp Hs.
  destruct (divvy_setup chunk key pad thr min_step max_size Hp)
    as (mc & col & Hmc & Hlen & Heq).
  rewrite Heq.
  destruct (Z_le_gt_dec (len (cumulative_diffs chunk)) pad) as [Hout|Hin].
  - rewrite getitem_out_of_range by assumption. cbn [bind gen_of_result raised].
    exists [], pad. rewrite Hlen. split; [reflexivity|lia].
  - destruct (getitem_in_range (cumulative_diffs chunk) pad) as [c0 Hc0]; [lia|].
    destruct (range_len_positive pad (len chunk - pad) min_step)
      as (k & Hk & Hb); [lia|lia|].
    rewrite Hc0, Hk. cbn [bind ret gen_of_result].
    assert (Hshort : len (cumulative_diffs chunk) <= len chunk - pad) by lia.
    destruct (divvy_loop_overrun col (cumulative_diffs chunk) mc min_step
                max_size thr (len chunk - pad) Hs Hshort k pad pad c0)
      as (ys & idx & Hys & Hidx); [lia|lia|].
    exists ys, idx. rewrite Hys, Hlen. split; [reflexivity|lia].
Qed.

Lemma divvy_by_confidence_pad0_overrun (thr : F) :
  divvy_by_confidence [zero_row; zero_row] [(2, 2); (2, 2); (2, 2); (2, 2)] 0 thr
  = ([], Some (IndexError 2 1)).
Proof.
  unfold divvy_by_confidence, zero_row. cbn.
  destruct (f_gt f_zero f_zero); reflexivity.
Qed.

Lemma divvy_by_confidence_pad1_overrun (thr : F) :
  divvy_by_confidence [zero_row; zero_row; zero_row]
    [(2, 2); (2, 2); (2, 2); (2, 2)] 1 thr
  = ([], Some (IndexError 2 2)).
Proof.
  unfold divvy_by_confidence, zero_row. cbn.
  destruct (f_gt f_zero f_zero); reflexivity.
Qed.
End DivvyOverrun.

(** C10: [cumulative_diffs] has n - 1 entries for a sub-region of n rows and
    is read at pad and at every candidate boundary up to n - pad.  With
    pad >= 2 and n >= 2 * pad + 1 every such index is in bounds and the
    generator ends without an [IndexError]; with pad <= 1 the index n - pad
    is out of bounds, every sub-region of n >= 2 * pad + 1 rows ends in an
    [IndexError], and there is a sub-region of at least pad + 1 rows on which
    the failing access is the one at n - pad. *)
Theorem cumulative_diffs_accesses :
  forall (F : Type) (num : Scalar F) (pad : Z) (thr : F),
    (forall (chunk : list (Row F)) (key : list (Z * Z)) (min_step max_size : Z),
        policy chunk key = inr (min_step, max_size) -> 0 < min_step ->
        len (cumulative_diffs chunk) = len chunk - 1
        /\ (2 <= pad -> 2 * pad + 1 <= len chunk ->
            (forall e, pad <= e <= len chunk - pad ->
                       0 <= e < len (cumulative_diffs chunk))
            /\ snd (divvy_by_confidence chunk key pad thr) = None)
        /\ (0 <= pad <= 1 -> 2 * pad + 1 <= len chunk ->
            len (cumulative_diffs chunk) <= len chunk - pad
            /\ exists idx,
                snd (divvy_by_confidence chunk key pad thr)
                = Some (IndexError idx (len chunk - 1))
                /\ len chunk - 1 <= idx <= len chunk - pad))
    /\ (0 <= pad <= 1 ->
        exists (chunk : list (Row F)) (key : list (Z * Z)),
          pad + 1 <= len chunk
          /\ snd (divvy_by_confidence chunk key pad thr)
             = Some (IndexError (len chunk - pad) (len chunk - 1))).
Proof.
  intros F num pad thr. split.
  - intros chunk key min_step max_size Hp Hs.
    destruct (divvy_setup chunk key pad thr min_step max_size Hp)
      as (mc & col & _ & Hlen & _).
    split; [exact Hlen|]. split.
    + intros Hpad Hn. split; [intros e He; lia|].
      destruct (divvy_by_confidence_spec chunk key pad thr min_step max_size)
        as (mc' & ys & _ & Hg & _); try assumption; [lia|].
      now rewrite Hg.
    + intros Hpad Hn. split; [lia|].
      destruct (divvy_by_confidence_overrun chunk key pad thr min_step max_size)
        as (ys & idx & Hg & Hidx); try assumption; [lia|].
      exists idx. now rewrite Hg.
  - intros Hpad.
    assert (Hcases : pad = 0 \/ pad = 1) by lia.
    destruct Hcases as [-> | ->].
    + exists [zero_row; zero_row], [(2, 2); (2, 2); (2, 2); (2, 2)].
      rewrite divvy_by_confidence_pad0_overrun.
      split; [cbn; lia | reflexivity].
    + exists [zero_row; zero_row; zero_row], [(2, 2); (2, 2); (2, 2); (2, 2)].
      rewrite divvy_by_confidence_pad1_overrun.
      split; [cbn; lia | reflexivity].
Qed.

Lemma cumulative_diffs_accesses_witness :
  snd (divvy_by_confidence volatile_chunk example_key 5 (1 # 10)%Q) = None
  /\ (exists idx,
        snd (divvy_by_confidence volatile_chunk example_key 1 (1 # 10)%Q)
        = Some (IndexError idx (len volatile_chunk - 1))
        /\ len volatile_chunk - 1 <= idx <= len volatile_chunk - 1)
  /\ exists (chunk : list (Row Q)) (key : list (Z * Z)),
       1 + 1 <= len chunk
       /\ snd (divvy_by_confidence chunk key 1 (1 # 10)%Q)
          = Some (IndexError (len chunk - 1) (len chunk - 1)).
Proof.
  assert (H3 : policy volatile_chunk example_key = inr (10, 20)) by reflexivity.
  assert (H4 : 0 < 10) by lia.
  split; [|split].
  - assert (H1 : 2 <= 5) by lia.
    assert (H2 : 2 * 5 + 1 <= len volatile_chunk)
      by (vm_compute; discriminate).
    exact (proj2 (proj1 (proj2 (proj1
             (cumulative_diffs_accesses Q Q_Scalar 5 (1 # 10)%Q)
             volatile_chunk example_key 10 20 H3 H4)) H1 H2)).
  - assert (H1 : 0 <= 1 <= 1) by lia.
    assert (H2 : 2 * 1 + 1 <= len volatile_chunk)
      by (vm_compute; discriminate).
    exact (proj2 (proj2 (proj2 (proj1
             (cumulative_diffs_accesses Q Q_Scalar 1 (1 # 10)%Q)
             volatile_chunk example_key 10 20 H3 H4)) H1 H2)).
  - assert (H1 : 0 <= 1 <= 1) by lia.
    exact (proj2 (cumulative_diffs_accesses Q Q_Scalar 1 (1 # 10)%Q) H1).
Defined.

(** ** The configuration *)

(** C8: category 0 should be split with the configured intergenic step size
    and max interval size, categories 1 to 3 with the genic ones.  The step
    sizes are the configured ones, but [main] puts the step size in the place
    of the max size: with the default options category 0 gets (100, 100)
    instead of (100, 10000) and the genic categories (10, 10) instead of
    (10, 500), and 60 steady UTR rows come out as [5,25), [25,45), [45,55)
    instead of [5,55). *)
Theorem step_key_max_size_is_step :
  forall (H5 F : Type) (num : Scalar F) (preds data : H5),
    (forall arguments : Args.t H5 F,
        hint_step_key arguments
        = [(Args.step_irpart arguments, Args.step_irpart arguments);
           (Args.step_genicpart arguments, Args.step_genicpart arguments);
           (Args.step_genicpart arguments, Args.step_genicpart arguments);
           (Args.step_genicpart arguments, Args.step_genicpart arguments)])
    /\ (let arguments : Args.t H5 F := default_arguments preds data in
        configured_step_key arguments
        = [(100, 10000); (10, 500); (10, 500); (10, 500)]
        /\ hint_step_key arguments = [(100, 100); (10, 10); (10, 10); (10, 10)])
    /\ (let arguments : Args.t H5 Q := default_arguments preds data in
        map (fun p => (start p, end_ p))
          (fst (divvy_by_confidence (utr_chunk 60) (configured_step_key arguments)
                  (Args.pad arguments) default_stability_threshold))
        = [(5, 55)]
        /\ map (fun p => (start p, end_ p))
             (fst (divvy_by_confidence (utr_chunk 60) (hint_step_key arguments)
                     (Args.pad arguments) default_stability_threshold))
           = [(5, 25); (25, 45); (45, 55)]).
Proof.
  intros H5 F num preds data.
  split; [reflexivity|]. split; [split; reflexivity|].
  split; vm_compute; reflexivity.
Qed.

(** C9: the threshold the Divvier compares the volatility with should be the
    configured stability threshold.  [main] never passes the option on: its
    output is the same for every configured value, the Divvier always runs
    with the default 0.1.  With the threshold set to 100 (and an intergenic
    step of 10), 30 volatile rows should give the single pre-hint [5,25);
    [main] writes the two hints 6..15 and 16..25. *)
Theorem main_ignores_stability_threshold :
  (forall (H5 F : Type) (num : Scalar F)
          (get_contiguous_ranges : H5 -> list ContiguousBit)
          (read_in_chunks : H5 -> H5 -> Z -> Z -> list (list (Row F) * Z * Z))
          (find_confident_single_class_regions : list (Row F) -> Z -> list (Z * Z))
          (arguments : Args.t H5 F) (t : F),
      main get_contiguous_ranges read_in_chunks
        find_confident_single_class_regions
        (with_stability_threshold t arguments)
      = main get_contiguous_ranges read_in_chunks
          find_confident_single_class_regions arguments)
  /\ (let arguments : Args.t unit Q :=
        with_stability_threshold (100 # 1)%Q
          (with_step_irpart 10 (default_arguments tt tt)) in
      map (fun p => (start p, end_ p))
        (fst (divvy_by_confidence volatile_chunk (hint_step_key arguments)
                (Args.pad arguments) (Args.stability_threshold arguments)))
      = [(5, 25)]
      /\ map (fun e => (gff_start e, gff_end e))
           (fst (main one_bit (one_chunk volatile_chunk) whole_chunk arguments))
         = [(6, 15); (16, 25)]).
Proof.
  split.
  - intros. reflexivity.
  - split; vm_compute; reflexivity.
Qed.

(** * Further properties of [predictions2hints.py] *)

(** ** Regions the Divvier does not split *)

Section DivvyEdges.
Context {F : Type} `{Scalar F}.

Lemma policy_nonempty (chunk : list (Row F)) (key : list (Z * Z)) (sm : Z * Z) :
  policy chunk key = inr sm -> 1 <= len chunk.
Proof.
  unfold policy, dominant_class. destruct chunk as [|r chunk'].
  - cbn. discriminate.
  - intros _. unfold len. cbn [List.length]. lia.
Qed.

Lemma dominant_class_range (chunk : list (Row F)) (c : Z) :
  dominant_class chunk = inr c -> 0 <= c <= 3.
Proof.
  unfold dominant_class. destruct (getitem chunk 0) as [e|row0]; [discriminate|].
  cbn [bind]. destruct (argmax_row row0) as (c' & Hc' & Hr).
  rewrite Hc'. intros [= <-]. exact Hr.
Qed.

Lemma dominant_class_nonempty (r : Row F) (chunk : list (Row F)) :
  exists c, dominant_class (r :: chunk) = inr c /\ 0 <= c <= 3.
Proof.
  unfold dominant_class. cbn [getitem]. 
  destruct (argmax_row r) as (c & Hc & Hr).
  exists c. split; [|exact Hr].
  unfold getitem. cbn. exact Hc.
Qed.
End DivvyEdges.

(** X1: a region of at most pad + 1 rows is not skipped: the generator raises
    [IndexError] before it yields anything, at row 0 of an empty region and
    at [cumulative_diffs[pad]] otherwise. *)
Theorem region_within_padding_raises :
  forall (F : Type) (num : Scalar F) (chunk : list (Row F)) (key : list (Z * Z))
         (pad : Z) (thr : F),
    0 <= pad -> len chunk <= pad + 1 ->
    (chunk = [] ->
     divvy_by_confidence chunk key pad thr = ([], Some (IndexError 0 0)))
    /\ (forall min_step max_size,
           policy chunk key = inr (min_step, max_size) ->
           divvy_by_confidence chunk key pad thr
           = ([], Some (IndexError pad (len chunk - 1)))).
Proof.
  intros F num chunk key pad thr Hpad Hn. split.
  - intros ->. reflexivity.
  - intros min_step max_size Hp.
    destruct (divvy_setup chunk key pad thr min_step max_size Hp)
      as (mc & col & _ & Hlen & Heq).
    rewrite Heq, getitem_out_of_range by lia. rewrite Hlen. reflexivity.
Qed.

Lemma region_within_padding_raises_witness :
  divvy_by_confidence (steady_chunk 6) example_key 5 (1 # 10)%Q
  = ([], Some (IndexError 5 (len (steady_chunk 6) - 1))).
Proof.
  assert (H1 : 0 <= 5) by lia.
  assert (H2 : len (steady_chunk 6) <= 5 + 1) by (vm_compute; discriminate).
  assert (H3 : policy (steady_chunk 6) example_key = inr (10, 20)) by reflexivity.
  exact (proj2 (region_within_padding_raises Q Q_Scalar (steady_chunk 6)
                  example_key 5 (1 # 10)%Q H1 H2) 10 20 H3).
Defined.

Lemma short_region_no_hint {F} `{Scalar F} (chunk : list (Row F))
    (key : list (Z * Z)) (pad : Z) (thr : F) (min_step max_size : Z) :
  pad + 2 <= len chunk <= 2 * pad ->
  policy chunk key = inr (min_step, max_size) -> 0 < min_step ->
  divvy_by_confidence chunk key pad thr = ([], None).
Proof.
  intros Hn Hp Hs.
  destruct (divvy_setup chunk key pad thr min_step max_size Hp)
    as (mc & col & _ & Hlen & Heq).
  destruct (getitem_in_range (cumulative_diffs chunk) pad) as [c0 Hc0]; [lia|].
  rewrite Heq, Hc0. cbn [bind].
  rewrite range_len_empty by lia. reflexivity.
Qed.

(** X2: a region of pad + 2 to 2 * pad rows is skipped silently: the generator
    yields nothing and returns normally. *)
Theorem region_up_to_twice_padding_skipped :
  forall (F : Type) (num : Scalar F) (chunk : list (Row F)) (key : list (Z * Z))
         (pad : Z) (thr : F) (min_step max_size : Z),
    pad + 2 <= len chunk <= 2 * pad ->
    policy chunk key = inr (min_step, max_size) -> 0 < min_step ->
    divvy_by_confidence chunk key pad thr = ([], None).
Proof.
  intros F num chunk key pad thr min_step max_size Hn Hp Hs.
  destruct (divvy_setup chunk key pad thr min_step max_size Hp)
    as (mc & col & _ & Hlen & Heq).
  destruct (getitem_in_range (cumulative_diffs chunk) pad) as [c0 Hc0]; [lia|].
  rewrite Heq, Hc0, range_len_empty by lia. reflexivity.
Qed.

Lemma region_up_to_twice_padding_skipped_witness :
  divvy_by_confidence (steady_chunk 7) example_key 5 (1 # 10)%Q = ([], None).
Proof.
  assert (H1 : 5 + 2 <= len (steady_chunk 7) <= 2 * 5)
    by (vm_compute; split; discriminate).
  assert (H3 : policy (steady_chunk 7) example_key = inr (10, 20)) by reflexivity.
  assert (H4 : 0 < 10) by lia.
  exact (region_up_to_twice_padding_skipped Q Q_Scalar (steady_chunk 7)
           example_key 5 (1 # 10)%Q 10 20 H1 H3 H4).
Defined.

(** X3: on a region of n rows with 0 <= pad <= n - 2, so that
    [cumulative_diffs[pad]] exists and is read without an exception, a step
    that is not positive is not rejected.  With a step of 0 the generator
    raises [ValueError] (from [range]) before it yields anything; with a
    negative step, when moreover n >= 2 * pad, it yields nothing and returns
    normally. *)
Theorem nonpositive_step_gives_no_hint :
  forall (F : Type) (num : Scalar F) (chunk : list (Row F)) (key : list (Z * Z))
         (pad : Z) (thr : F) (min_step max_size : Z),
    0 <= pad <= len chunk - 2 ->
    policy chunk key = inr (min_step, max_size) ->
    (min_step = 0 ->
     divvy_by_confidence chunk key pad thr = ([], Some ValueError))
    /\ (min_step < 0 -> 2 * pad <= len chunk ->
        divvy_by_confidence chunk key pad thr = ([], None)).
Proof.
  intros F num chunk key pad thr min_step max_size Hpad Hp.
  destruct (divvy_setup chunk key pad thr min_step max_size Hp)
    as (mc & col & _ & Hlen & Heq).
  destruct (getitem_in_range (cumulative_diffs chunk) pad) as [c0 Hc0]; [lia|].
  rewrite Heq, Hc0. cbn [bind]. unfold range_len. split.
  - intros ->. reflexivity.
  - intros Hs Hn.
    assert (E0 : (min_step =? 0) = false) by (apply Z.eqb_neq; lia).
    assert (E1 : (0 <? min_step) = false) by (apply Z.ltb_ge; lia).
    assert (E2 : (len chunk - pad <? pad) = false) by (apply Z.ltb_ge; lia).
    rewrite E0, E1, E2. reflexivity.
Qed.

Lemma nonpositive_step_gives_no_hint_witness :
  divvy_by_confidence volatile_chunk [(0, 20)] 5 (1 # 10)%Q = ([], Some ValueError)
  /\ divvy_by_confidence volatile_chunk [(-10, 20)] 5 (1 # 10)%Q = ([], None).
Proof.
  assert (H1 : 0 <= 5 <= len volatile_chunk - 2)
    by (vm_compute; split; discriminate).
  assert (H2 : 2 * 5 <= len volatile_chunk) by (vm_compute; discriminate).
  split.
  - assert (H3 : policy volatile_chunk [(0, 20)] = inr (0, 20)) by reflexivity.
    exact (proj1 (nonpositive_step_gives_no_hint Q Q_Scalar volatile_chunk
                    [(0, 20)] 5 (1 # 10)%Q 0 20 H1 H3) eq_refl).
  - assert (H3 : policy volatile_chunk [(-10, 20)] = inr (-10, 20))
      by reflexivity.
    assert (H4 : -10 < 0) by lia.
    exact (proj2 (nonpositive_step_gives_no_hint Q Q_Scalar volatile_chunk
                    [(-10, 20)] 5 (1 # 10)%Q (-10) 20 H1 H3) H4 H2).
Defined.

(** ** The length of a pre-hint *)

Section DivvyGrid.
Context {F : Type} `{Scalar F}.
Variables (col cum : list F) (main_class min_step max_size : Z).
Variables (thr : F) (padded_seq_end pad : Z).
Hypothesis min_step_pos : 0 < min_step.

(** Every pre-hint starts on the grid of the loop variable, and ends on it
    unless it ends at the padded end. *)
Lemma divvy_loop_grid :
  forall (k : nat) (j0 eoly : Z) (cdly : F),
    0 <= j0 ->
    on_grid pad min_step eoly ->
    pad + j0 * min_step + Z.of_nat k * min_step < padded_seq_end
      <= pad + j0 * min_step + (Z.of_nat k + 1) * min_step ->
    Forall (grid_hint pad min_step padded_seq_end)
      (fst (divvy_loop col cum main_class min_step max_size thr padded_seq_end
              (S k) (pad + j0 * min_step) eoly cdly)).
Proof.
  induction k as [|k IH]; intros j0 eoly cdly Hj0 He Hk.
  - change (Z.of_nat 0) with 0 in Hk.
    assert (Em : Z.min (pad + j0 * min_step + min_step) padded_seq_end
                 = padded_seq_end) by lia.
    rewrite divvy_loop_S, Em.
    destruct (getitem cum padded_seq_end) as [e|cd]; [constructor|].
    rewrite Z.eqb_refl, !orb_true_r. cbn [divvy_loop yield_then fst].
    constructor; [|constructor]. split; cbn; [exact He | now left].
  - rewrite Nat2Z.inj_succ in Hk.
    assert (Em : Z.min (pad + j0 * min_step + min_step) padded_seq_end
                 = pad + (j0 + 1) * min_step) by nia.
    assert (Ei : pad + j0 * min_step + min_step = pad + (j0 + 1) * min_step)
      by lia.
    rewrite divvy_loop_S, Em, Ei.
    destruct (getitem cum (pad + (j0 + 1) * min_step)) as [e|cd]; [constructor|].
    assert (Hg : on_grid pad min_step (pad + (j0 + 1) * min_step)).
    { exists (j0 + 1). split; [lia|reflexivity]. }
    destruct (_ || _ || _).
    + cbn [yield_then fst]. constructor.
      * split; cbn; [exact He | now right].
      * apply IH; [lia | exact Hg | nia].
    + apply IH; [lia | exact He | nia].
Qed.
End DivvyGrid.

Section DivvyLengths.
Context {F : Type} `{Scalar F}.

Lemma divvy_by_confidence_grid (chunk : list (Row F)) (key : list (Z * Z))
    (pad : Z) (thr : F) (min_step max_size : Z) :
  policy chunk key = inr (min_step, max_size) -> 0 < min_step ->
  Forall (grid_hint pad min_step (len chunk - pad))
    (fst (divvy_by_confidence chunk key pad thr)).
Proof.
  intros Hp Hs.
  destruct (divvy_setup chunk key pad thr min_step max_size Hp)
    as (mc & col & _ & _ & Heq).
  rewrite Heq.
  destruct (getitem (cumulative_diffs chunk) pad) as [e|c0]; [constructor|].
  cbn [bind].
  destruct (Z_lt_ge_dec pad (len chunk - pad)) as [Hlt|Hge].
  - destruct (range_len_positive pad (len chunk - pad) min_step Hs Hlt)
      as (k & Hk & Hb).
    rewrite Hk. cbn [bind ret gen_of_result].
    assert (Hg0 : on_grid pad min_step pad) by (exists 0; split; lia).
    pose proof (divvy_loop_grid col (cumulative_diffs chunk) mc min_step
                  max_size thr (len chunk - pad) pad Hs k 0 pad c0
                  ltac:(lia) Hg0 ltac:(lia)) as G.
    replace (pad + 0 * min_step) with pad in G by lia. exact G.
  - rewrite range_len_empty by lia. constructor.
Qed.
End DivvyLengths.

Lemma pre_hint_size_bound {F} `{Scalar F} (chunk : list (Row F))
    (key : list (Z * Z)) (pad : Z) (thr : F) (min_step max_size : Z) :
  2 <= pad -> 2 * pad < len chunk ->
  policy chunk key = inr (min_step, max_size) -> 0 < min_step ->
  forall p, In p (fst (divvy_by_confidence chunk key pad thr)) ->
    end_ p - start p <= min_step + Z.max 0 max_size.
Proof.
  intros Hpad Hn Hp Hs p Hin.
  pose proof (divvy_by_confidence_grid chunk key pad thr min_step max_size Hp Hs)
    as Hgrid.
  destruct (divvy_by_confidence_spec chunk key pad thr min_step max_size
              Hpad Hn Hp Hs) as (mc & ys & _ & Hg & Ht & Hf).
  rewrite Hg in Hin, Hgrid. cbn [fst] in Hin, Hgrid.
  rewrite Forall_forall in Hgrid, Hf.
  destruct (tiling_bounds _ _ _ Ht p Hin) as (Hlo & Hlt & Hhi).
  destruct (Hgrid p Hin) as ((js & Hjs & Hstart) & _).
  destruct (Hf p Hin) as (_ & Hquiet & _).
  pose proof (Z.div_mod (end_ p - pad - 1) min_step ltac:(lia)) as Hdm.
  pose proof (Z.mod_pos_bound (end_ p - pad - 1) min_step Hs) as Hm.
  destruct (Z_le_gt_dec (pad + (end_ p - pad - 1) / min_step * min_step)
              (start p)) as [Hle|Hgt]; [lia|].
  destruct (Hquiet ((end_ p - pad - 1) / min_step)) as [_ Hsize]; lia.
Qed.

(** X4: no pre-hint is empty and none is longer than min_step + max_size (than
    min_step when max_size is negative); a pre-hint that does not end at the
    padded end of its region spans a whole number of steps. *)
Theorem pre_hint_length_bounds :
  forall (F : Type) (num : Scalar F) (chunk : list (Row F)) (key : list (Z * Z))
         (pad : Z) (thr : F) (min_step max_size : Z),
    2 <= pad -> 2 * pad < len chunk ->
    policy chunk key = inr (min_step, max_size) -> 0 < min_step ->
    forall p, In p (fst (divvy_by_confidence chunk key pad thr)) ->
      1 <= end_ p - start p <= min_step + Z.max 0 max_size
      /\ (end_ p <> len chunk - pad ->
          exists m, 1 <= m /\ end_ p - start p = m * min_step).
Proof.
  intros F num chunk key pad thr min_step max_size Hpad Hn Hp Hs p Hin.
  pose proof (divvy_by_confidence_grid chunk key pad thr min_step max_size Hp Hs)
    as Hgrid.
  destruct (divvy_by_confidence_spec chunk key pad thr min_step max_size
              Hpad Hn Hp Hs) as (mc & ys & _ & Hg & Ht & Hf).
  rewrite Hg in Hin, Hgrid. cbn [fst] in Hin, Hgrid.
  rewrite Forall_forall in Hgrid, Hf.
  destruct (tiling_bounds _ _ _ Ht p Hin) as (Hlo & Hlt & Hhi).
  destruct (Hgrid p Hin) as ((js & Hjs & Hstart) & Hend).
  destruct (Hf p Hin) as (_ & Hquiet & _).
  split; [split; [lia|]|].
  - (* the last grid point below the end *)
    set (j := (end_ p - pad - 1) / min_step).
    pose proof (Z.div_mod (end_ p - pad - 1) min_step ltac:(lia)) as Hdm.
    pose proof (Z.mod_pos_bound (end_ p - pad - 1) min_step Hs) as Hm.
    fold j in Hdm.
    destruct (Z_le_gt_dec (pad + j * min_step) (start p)) as [Hle|Hgt].
    + lia.
    + destruct (Hquiet j) as [_ Hsize]; lia.
  - intros Hne. destruct Hend as [Hend|(je & Hje & Hend)]; [contradiction|].
    exists (je - js). split; [nia|lia].
Qed.

Lemma pre_hint_length_bounds_witness :
  exists p,
    In p (fst (divvy_by_confidence volatile_chunk example_key 5 (1 # 10)%Q))
    /\ 1 <= end_ p - start p <= 10 + Z.max 0 20.
Proof.
  assert (H1 : 2 <= 5) by lia.
  assert (H2 : 2 * 5 < len volatile_chunk) by (vm_compute; reflexivity).
  assert (H3 : policy volatile_chunk example_key = inr (10, 20)) by reflexivity.
  assert (H4 : 0 < 10) by lia.
  assert (E : exists p,
             In p (fst (divvy_by_confidence volatile_chunk example_key
                          5 (1 # 10)%Q))).
  { eexists. vm_compute. left. reflexivity. }
  destruct E as [p Hp]. exists p. split; [exact Hp|].
  exact (proj1 (pre_hint_length_bounds Q Q_Scalar volatile_chunk example_key
                  5 (1 # 10)%Q 10 20 H1 H2 H3 H4 p Hp)).
Defined.

(** ** The lines [main] writes *)

Lemma for_each_In {A B} (xs : list A) (body : A -> gen B) (b : B) :
  In b (fst (for_each xs body)) -> exists x, In x xs /\ In b (fst (body x)).
Proof.
  induction xs as [|x xs IH]; cbn [for_each fst]; [intros []|].
  destruct (body x) as [out [e|]] eqn:Eb; cbn [fst].
  - intros Hb. exists x. rewrite Eb. split; [now left | exact Hb].
  - intros Hb. apply in_app_or in Hb as [Hb|Hb].
    + exists x. rewrite Eb. split; [now left | exact Hb].
    + destruct (IH Hb) as (x' & Hx' & Hb'). exists x'. split; [now right | exact Hb'].
Qed.

Lemma for_each_returns {A B} (xs : list A) (body : A -> gen B) :
  (forall x, In x xs -> snd (body x) = None) -> snd (for_each xs body) = None.
Proof.
  induction xs as [|x xs IH]; intros Hall; [reflexivity|].
  cbn [for_each]. pose proof (Hall x (or_introl eq_refl)) as Hx.
  destruct (body x) as [out [e|]]; [discriminate Hx|].
  cbn [snd]. apply IH. intros x' Hx'. apply Hall. now right.
Qed.

Lemma for_gen_In {A B} (g : gen A) (body : A -> gen B) (b : B) :
  In b (fst (for_gen g body)) -> exists a, In a (fst g) /\ In b (fst (body a)).
Proof.
  unfold for_gen. intros Hb. apply (for_each_In (fst g) body b).
  destruct (for_each (fst g) body) as [out [e|]]; exact Hb.
Qed.

Section MainFacts.
Context {H5 F : Type} `{Scalar F}.
Variable get_contiguous_ranges : H5 -> list ContiguousBit.
Variable read_in_chunks : H5 -> H5 -> Z -> Z -> list (list (Row F) * Z * Z).
Variable find_confident_single_class_regions : list (Row F) -> Z -> list (Z * Z).

Lemma main_by_region (arguments : Args.t H5 F) :
  main get_contiguous_ranges read_in_chunks find_confident_single_class_regions
    arguments
  = for_each (get_contiguous_ranges (Args.h5_data arguments))
      (fun contiguous_bit =>
         for_each (read_in_chunks (Args.predictions arguments)
                     (Args.h5_data arguments)
                     (start_i contiguous_bit) (end_i contiguous_bit))
           (fun '(pred_chunk, start', _) =>
              for_each (find_confident_single_class_regions pred_chunk
                          (Args.pad arguments))
                (region_hints arguments contiguous_bit pred_chunk start'))).
Proof.
  unfold main, region_hints. f_equal.
Qed.
End MainFacts.

Lemma start_end_strand_label {F} (cb : ContiguousBit) (cs ss : Z) (ph : PreHint F) :
  snd (start_end_strand cb cs ss ph) = strand_of cb.
Proof.
  unfold start_end_strand, strand_of. destruct (is_plus_strand cb); reflexivity.
Qed.

Lemma gff_entry_of_fields {F} (cb : ContiguousBit) (cs ss : Z) (ph : PreHint F)
    (e : GffEntry F) :
  In e (fst (gff_entry_of cb cs ss ph)) ->
  getitem HINTS (category ph) = inr (feature e)
  /\ (gff_start e, gff_end e, strand e) = start_end_strand cb cs ss ph
  /\ sequence e = seqid cb
  /\ score e = confidence ph
  /\ source e = "Helixer"%string
  /\ phase e = "."%string
  /\ attribute e = "source=H"%string.
Proof.
  unfold gff_entry_of.
  destruct (getitem HINTS (category ph)) as [err|feat]; [intros []|].
  destruct (start_end_strand cb cs ss ph) as [[gs ge] st].
  cbn [fst]. intros [<-|[]]. cbn. auto 10.
Qed.

Lemma getitem_In {A} (l : list A) (i : Z) (a : A) :
  getitem l i = inr a -> In a l.
Proof.
  unfold getitem. destruct (_ || _); [discriminate|].
  destruct (nth_error l _) as [a'|] eqn:E; [|discriminate].
  intros [= <-]. eapply nth_error_In. exact E.
Qed.

(** X5: every line [main] writes, whatever the stores hold and wherever it
    stops, has the source Helixer, the phase '.', the attribute source=H and
    one of the four features of [HINTS]; its sequence and its strand are
    those of one of the contiguous bits, '+' for a forward bit and '-' for a
    reverse one. *)
Theorem main_lines_well_formed :
  forall (H5 F : Type) (num : Scalar F)
         (get_contiguous_ranges : H5 -> list ContiguousBit)
         (read_in_chunks : H5 -> H5 -> Z -> Z -> list (list (Row F) * Z * Z))
         (find_confident_single_class_regions : list (Row F) -> Z -> list (Z * Z))
         (arguments : Args.t H5 F) (e : GffEntry F),
    In e (fst (main get_contiguous_ranges read_in_chunks
                 find_confident_single_class_regions arguments)) ->
    source e = "Helixer"%string
    /\ phase e = "."%string
    /\ attribute e = "source=H"%string
    /\ In (feature e) HINTS
    /\ exists contiguous_bit,
         In contiguous_bit (get_contiguous_ranges (Args.h5_data arguments))
         /\ sequence e = seqid contiguous_bit
         /\ strand e = strand_of contiguous_bit.
Proof.
  intros H5 F num gcr ric fcr arguments e He.
  rewrite main_by_region in He.
  apply for_each_In in He as (cb & Hcb & He).
  apply for_each_In in He as ([[pred_chunk start'] end'] & _ & He).
  apply for_each_In in He as ([start_conf end_conf] & _ & He).
  unfold region_hints in He.
  apply for_gen_In in He as (ph & _ & He).
  apply gff_entry_of_fields in He
    as (Hfeat & Hcoord & Hseq & _ & Hsrc & Hph & Hattr).
  repeat (split; [assumption|]).
  split; [exact (getitem_In _ _ _ Hfeat)|].
  exists cb. split; [exact Hcb|]. split; [exact Hseq|].
  rewrite <- (start_end_strand_label cb start' start_conf ph), <- Hcoord.
  reflexivity.
Qed.

Lemma main_lines_well_formed_witness :
  exists e : GffEntry Q,
    In e (fst (main one_bit (one_chunk volatile_chunk) whole_chunk
                 (default_arguments tt tt)))
    /\ source e = "Helixer"%string /\ phase e = "."%string.
Proof.
  assert (E : exists e : GffEntry Q,
             In e (fst (main one_bit (one_chunk volatile_chunk) whole_chunk
                          (default_arguments tt tt)))).
  { eexists. vm_compute. left. reflexivity. }
  destruct E as [e He]. exists e. split; [exact He|].
  destruct (main_lines_well_formed unit Q Q_Scalar one_bit
              (one_chunk volatile_chunk) whole_chunk (default_arguments tt tt)
              e He) as (Hs & Hp & _).
  split; assumption.
Defined.

(** ** One region: from pre-hints to lines *)

Lemma last_map_cons {A B} (f : A -> B) (a : A) (l : list A) (d : B) (d' : A) :
  last (map f (a :: l)) d = f (last (a :: l) d').
Proof.
  revert a. induction l as [|b l IH]; intros a; [reflexivity|].
  change (last (map f (a :: b :: l)) d) with (last (map f (b :: l)) d).
  change (last (a :: b :: l) d') with (last (b :: l) d').
  apply IH.
Qed.

Section RegionFacts.
Context {H5 F : Type} `{Scalar F}.

Lemma policy_hint_step_key (arguments : Args.t H5 F) (r : Row F)
    (chunk : list (Row F)) :
  exists c s,
    dominant_class (r :: chunk) = inr c /\ 0 <= c <= 3
    /\ policy (r :: chunk) (hint_step_key arguments) = inr (s, s)
    /\ s = if c =? 0 then Args.step_irpart arguments
           else Args.step_genicpart arguments.
Proof.
  destruct (dominant_class_nonempty r chunk) as (c & Hc & Hr).
  exists c. unfold policy. rewrite Hc. cbn [bind].
  assert (Hcases : c = 0 \/ c = 1 \/ c = 2 \/ c = 3) by lia.
  destruct Hcases as [ -> | [ -> | [ -> | -> ] ] ]; eexists;
    (split; [reflexivity|]); (split; [lia|]); split; reflexivity.
Qed.

Lemma hints_feature (c : Z) :
  0 <= c <= 3 -> exists feature', getitem HINTS c = inr feature'.
Proof.
  intros Hc. assert (Hcases : c = 0 \/ c = 1 \/ c = 2 \/ c = 3) by lia.
  destruct Hcases as [ -> | [ -> | [ -> | -> ] ] ]; eexists; reflexivity.
Qed.

Lemma gff_entry_of_line (cb : ContiguousBit) (cs ss : Z) (ph : PreHint F)
    (feature' : string) :
  getitem HINTS (category ph) = inr feature' ->
  gff_entry_of cb cs ss ph = ([hint_line feature' cb cs ss ph], None).
Proof.
  intros Hf. unfold gff_entry_of, hint_line. rewrite Hf.
  destruct (start_end_strand cb cs ss ph) as [[gs ge] st]. reflexivity.
Qed.

Lemma for_each_lines (cb : ContiguousBit) (cs ss : Z) (feature' : string)
    (c : Z) (ys : list (PreHint F)) :
  getitem HINTS c = inr feature' ->
  Forall (fun p => category p = c) ys ->
  for_each ys (gff_entry_of cb cs ss) = (map (hint_line feature' cb cs ss) ys, None).
Proof.
  intros Hf. induction 1 as [|p ps Hp _ IH]; [reflexivity|].
  cbn [for_each map]. rewrite gff_entry_of_line with (feature' := feature')
    by (rewrite Hp; exact Hf).
  rewrite IH. reflexivity.
Qed.

(** With a padding of at least 2 and positive steps, a region of at least
    pad + 2 rows is turned into lines without an exception, one line per
    pre-hint. *)
Lemma region_hints_lines (arguments : Args.t H5 F) (cb : ContiguousBit)
    (pred_chunk : list (Row F)) (start' start_conf end_conf : Z) :
  2 <= Args.pad arguments ->
  0 < Args.step_irpart arguments -> 0 < Args.step_genicpart arguments ->
  Args.pad arguments + 2 <= len (slice pred_chunk start_conf end_conf) ->
  exists feature' ys,
    In feature' HINTS
    /\ divvy_by_confidence (slice pred_chunk start_conf end_conf)
         (hint_step_key arguments) (Args.pad arguments)
         default_stability_threshold = (ys, None)
    /\ region_hints arguments cb pred_chunk start' (start_conf, end_conf)
       = (map (hint_line feature' cb start' start_conf) ys, None).
Proof.
  intros Hpad Hir Hg Hn. unfold region_hints.
  set (chunk := slice pred_chunk start_conf end_conf) in *.
  destruct chunk as [|r chunk'] eqn:Echunk.
  { unfold len in Hn. cbn in Hn. lia. }
  destruct (policy_hint_step_key arguments r chunk') as (c & s & Hc & Hr & Hp & Hs).
  assert (Hspos : 0 < s) by (rewrite Hs; destruct (c =? 0); assumption).
  destruct (hints_feature c Hr) as [feature' Hf].
  exists feature'.
  destruct (Z_le_gt_dec (len (r :: chunk')) (2 * Args.pad arguments)) as [Hle|Hgt].
  - exists []. split; [exact (getitem_In _ _ _ Hf)|].
    rewrite (short_region_no_hint (r :: chunk')
               (hint_step_key arguments) (Args.pad arguments)
               default_stability_threshold s s) by (try assumption; lia).
    split; reflexivity.
  - destruct (divvy_by_confidence_spec (r :: chunk') (hint_step_key arguments)
                (Args.pad arguments) default_stability_threshold s s)
      as (mc & ys & Hmc & Hdiv & _ & Hok); try assumption; [lia|].
    exists ys. split; [exact (getitem_In _ _ _ Hf)|].
    rewrite Hdiv. split; [reflexivity|].
    unfold for_gen. cbn [fst snd].
    rewrite (for_each_lines cb start' start_conf feature' c ys Hf);
      [reflexivity|].
    rewrite Hc in Hmc. injection Hmc as <-.
    eapply Forall_impl; [|exact Hok]. intros p (_ & _ & Hcat). exact Hcat.
Qed.
End RegionFacts.

Section RegionTiling.
Context {H5 F : Type} `{Scalar F}.

Lemma region_hints_tiling (arguments : Args.t H5 F) (cb : ContiguousBit)
    (pred_chunk : list (Row F)) (start' start_conf end_conf : Z) :
  2 <= Args.pad arguments ->
  0 < Args.step_irpart arguments -> 0 < Args.step_genicpart arguments ->
  2 * Args.pad arguments < len (slice pred_chunk start_conf end_conf) ->
  exists feature' ys,
    region_hints arguments cb pred_chunk start' (start_conf, end_conf)
    = (map (hint_line feature' cb start' start_conf) ys, None)
    /\ tiling (Args.pad arguments) ys
         (len (slice pred_chunk start_conf end_conf) - Args.pad arguments).
Proof.
  intros Hpad Hir Hg Hn.
  destruct (region_hints_lines arguments cb pred_chunk start' start_conf end_conf)
    as (feature' & ys & _ & Hdiv & Hlines); try assumption; [lia|].
  exists feature', ys. split; [exact Hlines|].
  destruct (slice pred_chunk start_conf end_conf) as [|r chunk'] eqn:Echunk.
  { unfold len in Hn. cbn [List.length] in Hn. lia. }
  destruct (policy_hint_step_key arguments r chunk') as (c & s & Hc & Hr & Hp & Hs).
  assert (Hspos : 0 < s) by (rewrite Hs; destruct (c =? 0); assumption).
  destruct (divvy_by_confidence_spec (r :: chunk') (hint_step_key arguments)
              (Args.pad arguments) default_stability_threshold s s)
    as (mc & ys' & _ & Hdiv' & Ht & _); try assumption.
  rewrite Hdiv in Hdiv'. injection Hdiv' as <-. exact Ht.
Qed.
End RegionTiling.

(** X6: on the forward strand, with a padding of at least 2 and positive steps,
    the lines written for a confident region of n > 2 * pad rows run from
    base chunk_start + region_start + pad + 1 to base
    chunk_start + region_start + n - pad; each one starts on the base after
    the end of the one before it, so that they neither overlap nor leave a
    gap. *)
Theorem forward_lines_abut :
  forall (H5 F : Type) (num : Scalar F) (arguments : Args.t H5 F)
         (contiguous_bit : ContiguousBit) (pred_chunk : list (Row F))
         (chunk_start start_conf end_conf : Z),
    is_plus_strand contiguous_bit = true ->
    2 <= Args.pad arguments ->
    0 < Args.step_irpart arguments -> 0 < Args.step_genicpart arguments ->
    let n := len (slice pred_chunk start_conf end_conf) in
    2 * Args.pad arguments < n ->
    let g := region_hints arguments contiguous_bit pred_chunk chunk_start
               (start_conf, end_conf) in
    snd g = None
    /\ (exists e es, fst g = e :: es
                     /\ gff_start e = chunk_start + start_conf + Args.pad arguments + 1)
    /\ (forall d, gff_end (last (fst g) d)
                  = chunk_start + start_conf + n - Args.pad arguments)
    /\ (forall e, In e (fst g) -> gff_start e <= gff_end e)
    /\ (forall (i : nat) e1 e2,
          nth_error (fst g) i = Some e1 -> nth_error (fst g) (S i) = Some e2 ->
          gff_start e2 = gff_end e1 + 1).
Proof.
  intros H5 F num arguments cb pred_chunk cs sc ec Hplus Hpad Hir Hg n Hn g.
  destruct (region_hints_tiling arguments cb pred_chunk cs sc ec)
    as (feature' & ys & Hlines & Ht); try assumption.
  subst g. rewrite Hlines. cbn [fst snd]. fold n in Ht.
  assert (Hs : forall p : PreHint F,
             gff_start (hint_line feature' cb cs sc p) = cs + sc + start p + 1).
  { intros p. unfold hint_line. cbn [gff_start].
    rewrite start_end_strand_plus by assumption. reflexivity. }
  assert (He : forall p : PreHint F,
             gff_end (hint_line feature' cb cs sc p) = cs + sc + end_ p).
  { intros p. unfold hint_line. cbn [gff_end].
    rewrite start_end_strand_plus by assumption. reflexivity. }
  split; [reflexivity|].
  destruct (tiling_head _ _ _ Ht) as (p0 & ps & -> & Hp0).
  split; [|split; [|split]].
  - exists (hint_line feature' cb cs sc p0), (map (hint_line feature' cb cs sc) ps).
    split; [reflexivity|]. rewrite Hs, Hp0. reflexivity.
  - intros d. rewrite (last_map_cons _ p0 ps d p0), He.
    rewrite (tiling_last_end _ _ _ Ht). lia.
  - intros e Hin. apply in_map_iff in Hin as (p & <- & Hp).
    rewrite Hs, He. pose proof (tiling_bounds _ _ _ Ht p Hp). lia.
  - intros i e1 e2 H1 H2.
    rewrite nth_error_map in H1, H2.
    destruct (nth_error (p0 :: ps) i) as [p|] eqn:Hp1; [|discriminate H1].
    destruct (nth_error (p0 :: ps) (S i)) as [q|] eqn:Hq2; [|discriminate H2].
    cbn [option_map] in H1, H2. injection H1 as <-. injection H2 as <-.
    rewrite Hs, He. rewrite (tiling_adjacent _ _ _ Ht i p q Hp1 Hq2). lia.
Qed.

Lemma forward_lines_abut_witness :
  let g := region_hints (with_step_irpart 10 (default_arguments tt tt))
             (mkContiguousBit "chr1" 0 1 true) volatile_chunk 1000 (0, 30) in
  snd g = None
  /\ map (fun e : GffEntry Q => (gff_start e, gff_end e)) (fst g)
     = [(1006, 1015); (1016, 1025)].
Proof.
  assert (H2 : 2 * Args.pad (with_step_irpart 10 (default_arguments (F:=Q) tt tt))
               < len (slice volatile_chunk 0 30)) by (vm_compute; reflexivity).
  split.
  - exact (proj1 (forward_lines_abut unit Q Q_Scalar
                    (with_step_irpart 10 (default_arguments tt tt))
                    (mkContiguousBit "chr1" 0 1 true) volatile_chunk 1000 0 30
                    eq_refl ltac:(cbn; lia) ltac:(cbn; lia) ltac:(cbn; lia) H2)).
  - vm_compute. reflexivity.
Defined.

(** X10: on the reverse strand, with a padding of at least 2 and positive steps,
    the lines written for a confident region of n > 2 * pad rows go down the
    sequence: the first ends at base chunk_start - region_start - pad + 1,
    the last starts at base chunk_start - region_start - (n - pad), and each
    line ends one base after the start of the line before it, so that two
    consecutive lines share two bases. *)
Theorem reverse_lines_overlap :
  forall (H5 F : Type) (num : Scalar F) (arguments : Args.t H5 F)
         (contiguous_bit : ContiguousBit) (pred_chunk : list (Row F))
         (chunk_start start_conf end_conf : Z),
    is_plus_strand contiguous_bit = false ->
    2 <= Args.pad arguments ->
    0 < Args.step_irpart arguments -> 0 < Args.step_genicpart arguments ->
    let n := len (slice pred_chunk start_conf end_conf) in
    2 * Args.pad arguments < n ->
    let g := region_hints arguments contiguous_bit pred_chunk chunk_start
               (start_conf, end_conf) in
    snd g = None
    /\ (exists e es, fst g = e :: es
                     /\ gff_end e = chunk_start - start_conf - Args.pad arguments + 1)
    /\ (forall d, gff_start (last (fst g) d)
                  = chunk_start - start_conf - (n - Args.pad arguments))
    /\ (forall e, In e (fst g) -> gff_start e + 2 <= gff_end e)
    /\ (forall (i : nat) e1 e2,
          nth_error (fst g) i = Some e1 -> nth_error (fst g) (S i) = Some e2 ->
          gff_end e2 = gff_start e1 + 1).
Proof.
  intros H5 F num arguments cb pred_chunk cs sc ec Hminus Hpad Hir Hg n Hn g.
  destruct (region_hints_tiling arguments cb pred_chunk cs sc ec)
    as (feature' & ys & Hlines & Ht); try assumption.
  subst g. rewrite Hlines. cbn [fst snd]. fold n in Ht.
  assert (Hs : forall p : PreHint F,
             gff_start (hint_line feature' cb cs sc p) = cs - sc - end_ p).
  { intros p. unfold hint_line. cbn [gff_start].
    rewrite start_end_strand_minus by assumption. reflexivity. }
  assert (He : forall p : PreHint F,
             gff_end (hint_line feature' cb cs sc p) = cs - sc - start p + 1).
  { intros p. unfold hint_line. cbn [gff_end].
    rewrite start_end_strand_minus by assumption. reflexivity. }
  split; [reflexivity|].
  destruct (tiling_head _ _ _ Ht) as (p0 & ps & -> & Hp0).
  split; [|split; [|split]].
  - exists (hint_line feature' cb cs sc p0), (map (hint_line feature' cb cs sc) ps).
    split; [reflexivity|]. rewrite He, Hp0. reflexivity.
  - intros d. rewrite (last_map_cons _ p0 ps d p0), Hs.
    rewrite (tiling_last_end _ _ _ Ht). reflexivity.
  - intros e Hin. apply in_map_iff in Hin as (p & <- & Hp).
    rewrite Hs, He. pose proof (tiling_bounds _ _ _ Ht p Hp). lia.
  - intros i e1 e2 H1 H2.
    rewrite nth_error_map in H1, H2.
    destruct (nth_error (p0 :: ps) i) as [p|] eqn:Hp1; [|discriminate H1].
    destruct (nth_error (p0 :: ps) (S i)) as [q|] eqn:Hq2; [|discriminate H2].
    cbn [option_map] in H1, H2. injection H1 as <-. injection H2 as <-.
    rewrite Hs, He. rewrite (tiling_adjacent _ _ _ Ht i p q Hp1 Hq2). lia.
Qed.

Lemma reverse_lines_overlap_witness :
  let g := region_hints (with_step_irpart 10 (default_arguments tt tt))
             (mkContiguousBit "chr1" 0 1 false) volatile_chunk 1030 (0, 30) in
  snd g = None
  /\ map (fun e : GffEntry Q => (gff_start e, gff_end e)) (fst g)
     = [(1015, 1026); (1005, 1016)].
Proof.
  assert (H2 : 2 * Args.pad (with_step_irpart 10 (default_arguments (F:=Q) tt tt))
               < len (slice volatile_chunk 0 30)) by (vm_compute; reflexivity).
  split.
  - exact (proj1 (reverse_lines_overlap unit Q Q_Scalar
                    (with_step_irpart 10 (default_arguments tt tt))
                    (mkContiguousBit "chr1" 0 1 false) volatile_chunk 1030 0 30
                    eq_refl ltac:(cbn; lia) ltac:(cbn; lia) ltac:(cbn; lia) H2)).
  - vm_compute. reflexivity.
Defined.

(** X7: [main] returns normally, with a padding of at least 2 and positive
    steps, when every confident region that the extractor gives has at least
    pad + 2 rows. *)
Theorem main_returns_normally :
  forall (H5 F : Type) (num : Scalar F)
         (get_contiguous_ranges : H5 -> list ContiguousBit)
         (read_in_chunks : H5 -> H5 -> Z -> Z -> list (list (Row F) * Z * Z))
         (find_confident_single_class_regions : list (Row F) -> Z -> list (Z * Z))
         (arguments : Args.t H5 F),
    2 <= Args.pad arguments ->
    0 < Args.step_irpart arguments -> 0 < Args.step_genicpart arguments ->
    (forall contiguous_bit pred_chunk chunk_start chunk_end start_conf end_conf,
        In contiguous_bit (get_contiguous_ranges (Args.h5_data arguments)) ->
        In (pred_chunk, chunk_start, chunk_end)
           (read_in_chunks (Args.predictions arguments) (Args.h5_data arguments)
              (start_i contiguous_bit) (end_i contiguous_bit)) ->
        In (start_conf, end_conf)
           (find_confident_single_class_regions pred_chunk (Args.pad arguments)) ->
        Args.pad arguments + 2 <= len (slice pred_chunk start_conf end_conf)) ->
    snd (main get_contiguous_ranges read_in_chunks
           find_confident_single_class_regions arguments) = None.
Proof.
  intros H5 F num gcr ric fcr arguments Hpad Hir Hg Hregions.
  rewrite main_by_region.
  apply for_each_returns. intros cb Hcb.
  apply for_each_returns. intros [[pred_chunk cs] ce] Hchunk.
  apply for_each_returns. intros [sc ec] Hregion.
  destruct (region_hints_lines arguments cb pred_chunk cs sc ec)
    as (feature' & ys & _ & _ & Hlines); try assumption.
  - exact (Hregions cb pred_chunk cs ce sc ec Hcb Hchunk Hregion).
  - rewrite Hlines. reflexivity.
Qed.

Lemma main_returns_normally_witness :
  snd (main one_bit (one_chunk volatile_chunk) whole_chunk
         (default_arguments (F:=Q) tt tt)) = None.
Proof.
  apply (main_returns_normally unit Q Q_Scalar one_bit
           (one_chunk volatile_chunk) whole_chunk (default_arguments tt tt)).
  - cbn. lia.
  - cbn. lia.
  - cbn. lia.
  - intros cb pred_chunk cs ce sc ec Hcb Hchunk Hregion.
    destruct Hchunk as [Hchunk|[]]. injection Hchunk as <- _ _.
    destruct Hregion as [Hregion|[]]. injection Hregion as <- <-.
    vm_compute. discriminate.
Defined.

(** ** The volatility, in exact arithmetic *)

Lemma getitem_nth_error {A} (l : list A) (i : Z) (a : A) :
  0 <= i -> getitem l i = inr a -> nth_error l (Z.to_nat i) = Some a.
Proof.
  intros Hi. unfold getitem.
  assert (E : (i <? 0) = false) by (apply Z.ltb_ge; lia).
  rewrite E. destruct (_ || _); [discriminate|].
  destruct (nth_error l (Z.to_nat i)) as [a'|]; [|discriminate].
  now intros [= ->].
Qed.

Lemma cumsum_from_above (acc : Q) (l : list Q) :
  Forall (fun x => 0 <= x)%Q l -> Forall (fun y => acc <= y)%Q (cumsum_from acc l).
Proof.
  revert acc. induction l as [|x t IH]; intros acc Hl; [constructor|].
  inversion Hl as [|? ? Hx Ht]; subst. cbn [cumsum_from].
  assert (Hacc : (acc <= acc + x)%Q).
  { rewrite <- (Qplus_0_r acc) at 1. apply Qplus_le_r. exact Hx. }
  constructor; [exact Hacc|].
  eapply Forall_impl; [|apply IH; exact Ht].
  intros y Hy. cbn in Hy. eapply Qle_trans; [exact Hacc|exact Hy].
Qed.

Lemma cumsum_from_sorted (acc : Q) (l : list Q) :
  Forall (fun x => 0 <= x)%Q l ->
  forall (i j : nat) (x y : Q),
    (i <= j)%nat ->
    nth_error (cumsum_from acc l) i = Some x ->
    nth_error (cumsum_from acc l) j = Some y ->
    (x <= y)%Q.
Proof.
  revert acc. induction l as [|a t IH]; intros acc Hl i j x y Hij Hi Hj.
  - destruct i; discriminate Hi.
  - inversion Hl as [|? ? Ha Ht]; subst. cbn [cumsum_from] in Hi, Hj.
    destruct i as [|i], j as [|j]; cbn in Hi, Hj.
    + injection Hi as <-. injection Hj as <-. apply Qle_refl.
    + injection Hi as <-.
      pose proof (cumsum_from_above (f_add acc a) t Ht) as Habove.
      rewrite Forall_forall in Habove. apply Habove.
      eapply nth_error_In. exact Hj.
    + lia.
    + apply (IH (f_add acc a) Ht i j x y); [lia|assumption|assumption].
Qed.

Lemma cumsum_sorted (l : list Q) :
  Forall (fun x => 0 <= x)%Q l ->
  forall (i j : nat) (x y : Q),
    (i <= j)%nat ->
    nth_error (cumsum l) i = Some x -> nth_error (cumsum l) j = Some y ->
    (x <= y)%Q.
Proof.
  intros Hl i j x y Hij Hi Hj. destruct l as [|a t]; [destruct i; discriminate Hi|].
  inversion Hl as [|? ? Ha Ht]; subst. cbn [cumsum] in Hi, Hj.
  destruct i as [|i], j as [|j]; cbn in Hi, Hj.
  - injection Hi as <-. injection Hj as <-. apply Qle_refl.
  - injection Hi as <-.
    pose proof (cumsum_from_above a t Ht) as Habove.
    rewrite Forall_forall in Habove. apply Habove.
    eapply nth_error_In. exact Hj.
  - lia.
  - apply (cumsum_from_sorted a t Ht i j x y); [lia|assumption|assumption].
Qed.

Lemma abs_diffs_nonneg (col : list Q) :
  Forall (fun x => 0 <= x)%Q (abs_diffs col).
Proof.
  unfold abs_diffs. generalize (removelast col), (tl col).
  induction l as [|a t IH]; intros [|b t']; cbn [map2]; constructor.
  - exact (Qabs_nonneg (a - b)).
  - apply IH.
Qed.

(** The volatility measured from the end of the last yield does not decrease
    as the candidate boundary advances, and is never negative. *)
Lemma volatility_nonneg (chunk : list (Row Q)) (s e : Z) :
  0 <= s <= e -> e < len (cumulative_diffs chunk) ->
  (0 <= volatility (cumulative_diffs chunk) s e)%Q.
Proof.
  intros Hse He. unfold volatility, item_or.
  destruct (getitem_in_range (cumulative_diffs chunk) s) as [x Hx]; [lia|].
  destruct (getitem_in_range (cumulative_diffs chunk) e) as [y Hy]; [lia|].
  rewrite Hx, Hy. apply getitem_nth_error in Hx; [|lia].
  apply getitem_nth_error in Hy; [|lia].
  assert (Hxy : (x <= y)%Q).
  { unfold cumulative_diffs in Hx, Hy.
    destruct (main_class <- dominant_class chunk;; column chunk main_class)
      as [err|col].
    - destruct (Z.to_nat s); discriminate Hx.
    - apply (cumsum_sorted (abs_diffs col) (abs_diffs_nonneg col)
               (Z.to_nat s) (Z.to_nat e) x y); [lia|assumption|assumption]. }
  cbn. unfold Qminus. rewrite <- (Qplus_opp_r x).
  apply Qplus_le_l. exact Hxy.
Qed.

(** X8: with a negative stability threshold every candidate boundary closes a
    pre-hint: no pre-hint is longer than one step, and all but the last of a
    region are exactly one step long. *)
Theorem negative_threshold_single_steps :
  forall (chunk : list (Row Q)) (key : list (Z * Z)) (pad : Z) (thr : Q)
         (min_step max_size : Z),
    2 <= pad -> 2 * pad < len chunk ->
    policy chunk key = inr (min_step, max_size) -> 0 < min_step ->
    (thr < 0)%Q ->
    forall p, In p (fst (divvy_by_confidence chunk key pad thr)) ->
      end_ p - start p <= min_step
      /\ (end_ p <> len chunk - pad -> end_ p - start p = min_step).
Proof.
  intros chunk key pad thr min_step max_size Hpad Hn Hp Hs Hthr p Hin.
  pose proof (divvy_by_confidence_grid chunk key pad thr min_step max_size Hp Hs)
    as Hgrid.
  destruct (divvy_setup chunk key pad thr min_step max_size Hp)
    as (_ & _ & _ & Hlen & _).
  destruct (divvy_by_confidence_spec chunk key pad thr min_step max_size
              Hpad Hn Hp Hs) as (mc & ys & _ & Hg & Ht & Hf).
  rewrite Hg in Hin, Hgrid. cbn [fst] in Hin, Hgrid.
  rewrite Forall_forall in Hgrid, Hf.
  destruct (tiling_bounds _ _ _ Ht p Hin) as (Hlo & Hlt & Hhi).
  destruct (Hgrid p Hin) as ((js & Hjs & Hstart) & Hend).
  destruct (Hf p Hin) as (_ & Hquiet & _).
  assert (Hone : end_ p - start p <= min_step).
  { set (j := (end_ p - pad - 1) / min_step).
    pose proof (Z.div_mod (end_ p - pad - 1) min_step ltac:(lia)) as Hdm.
    pose proof (Z.mod_pos_bound (end_ p - pad - 1) min_step Hs) as Hm.
    fold j in Hdm.
    destruct (Z_le_gt_dec (pad + j * min_step) (start p)) as [Hle|Hgt]; [lia|].
    exfalso. destruct (Hquiet j) as [Hv _]; [lia|].
    pose proof (volatility_nonneg chunk (start p) (pad + j * min_step)
                  ltac:(lia) ltac:(lia)) as Hnn.
    cbn [f_gt Q_Scalar] in Hv. apply negb_false_iff in Hv.
    apply Qle_bool_iff in Hv.
    apply (Qlt_irrefl 0%Q).
    eapply Qle_lt_trans; [exact Hnn|]. eapply Qle_lt_trans; [exact Hv|exact Hthr]. }
  split; [exact Hone|].
  intros Hne. destruct Hend as [Hend|(je & Hje & Hend)]; [contradiction|].
  assert (js + 1 <= je) by nia. nia.
Qed.

Lemma negative_threshold_single_steps_witness :
  exists p,
    In p (fst (divvy_by_confidence (steady_chunk 30) example_key 5 (-1 # 10)%Q))
    /\ end_ p - start p <= 10.
Proof.
  assert (H1 : 2 <= 5) by lia.
  assert (H2 : 2 * 5 < len (steady_chunk 30)) by (vm_compute; reflexivity).
  assert (H3 : policy (steady_chunk 30) example_key = inr (10, 20))
    by reflexivity.
  assert (H4 : 0 < 10) by lia.
  assert (H5 : (-1 # 10 < 0)%Q) by (vm_compute; reflexivity).
  assert (E : exists p,
             In p (fst (divvy_by_confidence (steady_chunk 30) example_key
                          5 (-1 # 10)%Q))).
  { eexists. vm_compute. left. reflexivity. }
  destruct E as [p Hp]. exists p. split; [exact Hp|].
  exact (proj1 (negative_threshold_single_steps (steady_chunk 30) example_key
                  5 (-1 # 10)%Q 10 20 H1 H2 H3 H4 H5 p Hp)).
Defined.

(** ** Steady regions *)

Lemma Forall_removelast {A} (P : A -> Prop) (l : list A) :
  Forall P l -> Forall P (removelast l).
Proof.
  induction 1 as [|a l Ha Hl IH]; [constructor|].
  cbn [removelast]. destruct l; [constructor|]. constructor; assumption.
Qed.

Lemma Forall_tl {A} (P : A -> Prop) (l : list A) :
  Forall P l -> Forall P (tl l).
Proof. destruct 1; [constructor|assumption]. Qed.

Lemma Forall_map2 {A B C} (P : A -> Prop) (P' : B -> Prop) (R : C -> Prop)
    (f : A -> B -> C) (l : list A) (l' : list B) :
  (forall a b, P a -> P' b -> R (f a b)) ->
  Forall P l -> Forall P' l' -> Forall R (map2 f l l').
Proof.
  intros Hf Hl. revert l'. induction Hl as [|a l Ha Hl IH]; intros l' Hl'.
  - constructor.
  - destruct Hl' as [|b l' Hb Hl']; cbn [map2]; constructor; auto.
Qed.

Lemma abs_diffs_steady (v : Q) (col : list Q) :
  Forall (fun x => x == v)%Q col -> Forall (fun x => x == 0)%Q (abs_diffs col).
Proof.
  intros Hcol. unfold abs_diffs.
  apply (Forall_map2 (fun x => x == v)%Q (fun x => x == v)%Q).
  - intros a b Ha Hb. cbn [f_abs f_sub Q_Scalar]. rewrite Ha, Hb.
    unfold Qminus. rewrite Qplus_opp_r. reflexivity.
  - now apply Forall_removelast.
  - now apply Forall_tl.
Qed.

Lemma cumsum_from_zero (acc : Q) (l : list Q) :
  (acc == 0)%Q -> Forall (fun x => x == 0)%Q l ->
  Forall (fun x => x == 0)%Q (cumsum_from acc l).
Proof.
  intros Hacc Hl. revert acc Hacc.
  induction Hl as [|x t Hx Ht IH]; intros acc Hacc; [constructor|].
  assert (Hacc' : (f_add acc x == 0)%Q).
  { cbn [f_add Q_Scalar]. rewrite Hacc, Hx. reflexivity. }
  cbn [cumsum_from]. constructor; [exact Hacc'|]. apply IH. exact Hacc'.
Qed.

Lemma cumsum_zero (l : list Q) :
  Forall (fun x => x == 0)%Q l -> Forall (fun x => x == 0)%Q (cumsum l).
Proof.
  destruct 1 as [|x t Hx Ht]; [constructor|].
  cbn [cumsum]. constructor; [exact Hx|]. now apply cumsum_from_zero.
Qed.

Lemma item_or_zero (l : list Q) (i : Z) :
  Forall (fun x => x == 0)%Q l -> (item_or f_zero l i == 0)%Q.
Proof.
  intros Hl. unfold item_or. destruct (getitem l i) as [e|x] eqn:E.
  - reflexivity.
  - rewrite Forall_forall in Hl. apply Hl. eapply getitem_In. exact E.
Qed.

Lemma cumulative_diffs_steady (r0 : Row Q) (chunk : list (Row Q)) :
  Forall (fun r => r = r0) chunk ->
  Forall (fun x => x == 0)%Q (cumulative_diffs chunk).
Proof.
  intros Hrows. unfold cumulative_diffs.
  destruct (dominant_class chunk) as [e|c]; [constructor|]. cbn [bind].
  unfold column. destruct chunk as [|r chunk']; [constructor|].
  destruct (getitem (row_list r) c) as [e|v]; [constructor|]. cbn [bind ret].
  apply cumsum_zero.
  apply (abs_diffs_steady
           (match getitem (row_list r0) c with inr x => x | inl _ => f_zero end)).
  apply Forall_map. eapply Forall_impl; [|exact Hrows].
  intros r' ->. reflexivity.
Qed.

(** X9: along a region whose rows are all equal, with a threshold that is not
    negative, a pre-hint is closed by its size only: every pre-hint but the
    last is longer than max_size, by at most one step. *)
Theorem steady_region_split_by_size :
  forall (r0 : Row Q) (chunk : list (Row Q)) (key : list (Z * Z)) (pad : Z)
         (thr : Q) (min_step max_size : Z),
    Forall (fun r => r = r0) chunk ->
    2 <= pad -> 2 * pad < len chunk ->
    policy chunk key = inr (min_step, max_size) -> 0 < min_step ->
    (0 <= thr)%Q ->
    let ys := fst (divvy_by_confidence chunk key pad thr) in
    forall (i : nat) (p q : PreHint Q),
      nth_error ys i = Some p -> nth_error ys (S i) = Some q ->
      max_size < end_ p - start p <= min_step + Z.max 0 max_size.
Proof.
  intros r0 chunk key pad thr min_step max_size Hrows Hpad Hn Hp Hs Hthr
         ys i p q Hi HSi.
  assert (Hin : In p ys) by (eapply nth_error_In; exact Hi).
  split; [|exact (pre_hint_size_bound chunk key pad thr min_step max_size
                    Hpad Hn Hp Hs p Hin)].
  subst ys.
  destruct (divvy_by_confidence_spec chunk key pad thr min_step max_size
              Hpad Hn Hp Hs) as (mc & zs & _ & Hg & Ht & Hf).
  rewrite Hg in Hi, HSi, Hin. cbn [fst] in Hi, HSi, Hin.
  pose proof (tiling_adjacent _ _ _ Ht i p q Hi HSi) as Hadj.
  pose proof (tiling_bounds _ _ _ Ht q (nth_error_In _ _ HSi)) as Hq.
  rewrite Forall_forall in Hf.
  destruct (Hf p Hin) as (Hc & _ & _).
  destruct Hc as [Hc|[Hc|Hc]]; [|exact Hc|lia].
  exfalso. cbn [f_gt Q_Scalar] in Hc. apply negb_true_iff in Hc.
  assert (Hle : Qle_bool (volatility (cumulative_diffs chunk) (start p) (end_ p))
                  thr = true).
  { apply Qle_bool_iff. unfold volatility. cbn [f_sub Q_Scalar].
    rewrite !(item_or_zero _ _ (cumulative_diffs_steady r0 chunk Hrows)).
    exact Hthr. }
  congruence.
Qed.

Lemma steady_region_split_by_size_witness :
  exists p q : PreHint Q,
    nth_error (fst (divvy_by_confidence (steady_chunk 60) example_key 5
                      (1 # 10)%Q)) 0 = Some p
    /\ nth_error (fst (divvy_by_confidence (steady_chunk 60) example_key 5
                         (1 # 10)%Q)) 1 = Some q
    /\ 20 < end_ p - start p <= 10 + Z.max 0 20.
Proof.
  assert (H0 : Forall (fun r => r = example_row (95 # 100)) (steady_chunk 60)).
  { unfold steady_chunk. apply Forall_forall. intros r Hr.
    exact (repeat_spec _ _ _ Hr). }
  assert (H1 : 2 <= 5) by lia.
  assert (H2 : 2 * 5 < len (steady_chunk 60)) by (vm_compute; reflexivity).
  assert (H3 : policy (steady_chunk 60) example_key = inr (10, 20))
    by reflexivity.
  assert (H4 : 0 < 10) by lia.
  assert (H5 : (0 <= 1 # 10)%Q) by (vm_compute; discriminate).
  assert (E : exists p q,
             nth_error (fst (divvy_by_confidence (steady_chunk 60) example_key
                               5 (1 # 10)%Q)) 0 = Some p
             /\ nth_error (fst (divvy_by_confidence (steady_chunk 60) example_key
                                  5 (1 # 10)%Q)) 1 = Some q).
  { do 2 eexists. split; vm_compute; reflexivity. }
  destruct E as (p & q & Ep & Eq).
  exists p, q. split; [exact Ep|]. split; [exact Eq|].
  exact (steady_region_split_by_size (example_row (95 # 100)) (steady_chunk 60)
           example_key 5 (1 # 10)%Q 10 20 H0 H1 H2 H3 H4 H5 0%nat p q Ep Eq).
Defined.

(** ** The published coordinates count from 1 *)

Lemma slice_inside {A} (l : list A) (lo hi : Z) :
  0 <= lo -> slice l lo hi <> [] -> lo + len (slice l lo hi) <= len l.
Proof.
  intros Hlo Hne. unfold slice in *.
  assert (E : slice_bound (len l) lo = Z.min lo (len l)).
  { unfold slice_bound. replace (lo <? 0) with false; [reflexivity|].
    symmetry. apply Z.ltb_ge. lia. }
  rewrite E in *.
  destruct (Z_le_gt_dec lo (len l)) as [Hin|Hout].
  - rewrite Z.min_l in * by assumption.
    unfold len at 1. rewrite length_firstn, length_skipn.
    unfold len in Hin |- *. lia.
  - exfalso. apply Hne. rewrite Z.min_r by lia.
    rewrite skipn_all2 by (unfold len; lia). apply firstn_nil.
Qed.

Section DivvyWithin.
Context {F : Type} `{Scalar F}.
Variables (col cum : list F) (main_class min_step max_size : Z).
Variables (thr : F) (padded_seq_end : Z).
Hypothesis min_step_pos : 0 < min_step.

(** Whether the loop returns or raises, what it has yielded lies between
    the end of the last yield and the padded end, and is not empty. *)
Lemma divvy_loop_within :
  forall (k : nat) (i eoly : Z) (cdly : F),
    eoly <= i ->
    i + Z.of_nat k * min_step < padded_seq_end
      <= i + (Z.of_nat k + 1) * min_step ->
    Forall (fun p => eoly <= start p /\ start p < end_ p
                     /\ end_ p <= padded_seq_end)
      (fst (divvy_loop col cum main_class min_step max_size thr padded_seq_end
              (S k) i eoly cdly)).
Proof.
  induction k as [|k IH]; intros i eoly cdly He Hk.
  - change (Z.of_nat 0) with 0 in Hk.
    assert (Em : Z.min (i + min_step) padded_seq_end = padded_seq_end) by lia.
    rewrite divvy_loop_S, Em.
    destruct (getitem cum padded_seq_end) as [e|cd]; [constructor|].
    rewrite Z.eqb_refl, !orb_true_r. cbn [divvy_loop yield_then fst].
    constructor; [|constructor]. cbn [start end_]. lia.
  - rewrite Nat2Z.inj_succ in Hk.
    assert (Em : Z.min (i + min_step) padded_seq_end = i + min_step) by nia.
    rewrite divvy_loop_S, Em.
    destruct (getitem cum (i + min_step)) as [e|cd]; [constructor|].
    destruct (_ || _ || _).
    + cbn [yield_then fst]. constructor; [cbn [start end_]; nia|].
      eapply Forall_impl; [|apply (IH (i + min_step) (i + min_step) cd); [lia|nia]].
      intros p Hp. cbn beta in Hp. lia.
    + apply IH; [lia|nia].
Qed.
End DivvyWithin.

Section LinesWithin.
Context {H5 F : Type} `{Scalar F}.

Lemma divvy_by_confidence_within (chunk : list (Row F)) (key : list (Z * Z))
    (pad : Z) (thr : F) (min_step max_size : Z) :
  policy chunk key = inr (min_step, max_size) -> 0 < min_step ->
  Forall (fun p => pad <= start p /\ start p < end_ p
                   /\ end_ p <= len chunk - pad)
    (fst (divvy_by_confidence chunk key pad thr)).
Proof.
  intros Hp Hs.
  destruct (divvy_setup chunk key pad thr min_step max_size Hp)
    as (mc & col & _ & _ & Heq).
  rewrite Heq.
  destruct (getitem (cumulative_diffs chunk) pad) as [e|c0]; [constructor|].
  cbn [bind].
  destruct (Z_lt_ge_dec pad (len chunk - pad)) as [Hlt|Hge].
  - destruct (range_len_positive pad (len chunk - pad) min_step Hs Hlt)
      as (k & Hk & Hb).
    rewrite Hk. cbn [bind ret gen_of_result].
    apply divvy_loop_within; [exact Hs|lia|exact Hb].
  - rewrite range_len_empty by lia. constructor.
Qed.

(** Every line of a region is the resolution of a pre-hint that lies in the
    padded part of the region. *)
Lemma region_hints_within (arguments : Args.t H5 F) (cb : ContiguousBit)
    (pred_chunk : list (Row F)) (cs sc ec : Z) (e : GffEntry F) :
  0 < Args.step_irpart arguments -> 0 < Args.step_genicpart arguments ->
  In e (fst (region_hints arguments cb pred_chunk cs (sc, ec))) ->
  exists p : PreHint F,
    (gff_start e, gff_end e, strand e) = start_end_strand cb cs sc p
    /\ slice pred_chunk sc ec <> []
    /\ Args.pad arguments <= start p /\ start p < end_ p
    /\ end_ p <= len (slice pred_chunk sc ec) - Args.pad arguments.
Proof.
  intros Hir Hg He. unfold region_hints in He.
  apply for_gen_In in He as (p & Hp & He).
  apply gff_entry_of_fields in He as (_ & Hcoord & _).
  exists p. split; [exact Hcoord|].
  destruct (slice pred_chunk sc ec) as [|r chunk'] eqn:Echunk; [destruct Hp|].
  split; [discriminate|].
  destruct (policy_hint_step_key arguments r chunk') as (c & s & _ & _ & Hpol & Hs).
  assert (Hspos : 0 < s) by (rewrite Hs; destruct (c =? 0); assumption).
  pose proof (divvy_by_confidence_within (r :: chunk') (hint_step_key arguments)
                (Args.pad arguments) default_stability_threshold s s Hpol Hspos)
    as Hwithin.
  rewrite Forall_forall in Hwithin. exact (Hwithin p Hp).
Qed.
End LinesWithin.

(** C4: every hint the pipeline emits, on either strand, has
    gff_start <= gff_end and both at least 1.  The pre-hints have
    start < end because the steps are positive; the padding is at least 1,
    the offset of a region in its chunk is not negative, and the start of a
    chunk is not negative on the forward strand and is the upper end of the
    chunk (at least its number of rows) on the reverse strand, where the
    offsets are subtracted from it. *)
Theorem published_coordinates_from_1 :
  forall (H5 F : Type) (num : Scalar F)
         (get_contiguous_ranges : H5 -> list ContiguousBit)
         (read_in_chunks : H5 -> H5 -> Z -> Z -> list (list (Row F) * Z * Z))
         (find_confident_single_class_regions : list (Row F) -> Z -> list (Z * Z))
         (arguments : Args.t H5 F) (e : GffEntry F),
    1 <= Args.pad arguments ->
    0 < Args.step_irpart arguments -> 0 < Args.step_genicpart arguments ->
    (forall contiguous_bit pred_chunk chunk_start chunk_end start_conf end_conf,
        In contiguous_bit (get_contiguous_ranges (Args.h5_data arguments)) ->
        In (pred_chunk, chunk_start, chunk_end)
           (read_in_chunks (Args.predictions arguments) (Args.h5_data arguments)
              (start_i contiguous_bit) (end_i contiguous_bit)) ->
        In (start_conf, end_conf)
           (find_confident_single_class_regions pred_chunk (Args.pad arguments)) ->
        0 <= start_conf
        /\ (if is_plus_strand contiguous_bit then 0 <= chunk_start
            else len pred_chunk <= chunk_start)) ->
    In e (fst (main get_contiguous_ranges read_in_chunks
                 find_confident_single_class_regions arguments)) ->
    gff_start e <= gff_end e /\ 1 <= gff_start e /\ 1 <= gff_end e.
Proof.
  intros H5 F num gcr ric fcr arguments e Hpad Hir Hg Hstore He.
  rewrite main_by_region in He.
  apply for_each_In in He as (cb & Hcb & He).
  apply for_each_In in He as ([[pred_chunk cs] ce] & Hchunk & He).
  apply for_each_In in He as ([sc ec] & Hregion & He).
  destruct (Hstore cb pred_chunk cs ce sc ec Hcb Hchunk Hregion) as [Hsc Hcs].
  destruct (region_hints_within arguments cb pred_chunk cs sc ec e Hir Hg He)
    as (p & Hcoord & Hne & Hlo & Hlt & Hhi).
  pose proof (slice_inside pred_chunk sc ec Hsc Hne) as Hin.
  destruct (is_plus_strand cb) eqn:Hstrand.
  - rewrite start_end_strand_plus in Hcoord by assumption.
    injection Hcoord as Hs He' _. lia.
  - rewrite start_end_strand_minus in Hcoord by assumption.
    injection Hcoord as Hs He' _. lia.
Qed.

Lemma published_coordinates_from_1_witness :
  exists e : GffEntry Q,
    In e (fst (main one_reverse_bit (one_reverse_chunk volatile_chunk)
                 whole_chunk (with_step_irpart 10 (default_arguments tt tt))))
    /\ gff_start e <= gff_end e /\ 1 <= gff_start e /\ 1 <= gff_end e.
Proof.
  assert (E : exists e : GffEntry Q,
             In e (fst (main one_reverse_bit (one_reverse_chunk volatile_chunk)
                          whole_chunk
                          (with_step_irpart 10 (default_arguments tt tt))))).
  { eexists. vm_compute. left. reflexivity. }
  destruct E as [e He]. exists e. split; [exact He|].
  apply (published_coordinates_from_1 unit Q Q_Scalar one_reverse_bit
           (one_reverse_chunk volatile_chunk) whole_chunk
           (with_step_irpart 10 (default_arguments tt tt)) e).
  - cbn. lia.
  - cbn. lia.
  - cbn. lia.
  - intros cb pred_chunk cs ce sc ec Hcb Hchunk Hregion.
    destruct Hcb as [<-|[]].
    destruct Hchunk as [Hchunk|[]]. injection Hchunk as <- <- _.
    destruct Hregion as [Hregion|[]]. injection Hregion as <- _.
    split; [lia|]. cbn. lia.
  - exact He.
Defined.

(** * Properties of [export.py] *)

Module ExportFacts.
Import ExportScript.

Lemma split_comma_nonempty (s : string) : split_comma s <> [].
Proof.
  destruct s as [|c s']; cbn [split_comma]; [discriminate|].
  destruct (Ascii.eqb c comma); [discriminate|].
  destruct (split_comma s'); discriminate.
Qed.

Lemma split_comma_join (s : string) : String.concat "," (split_comma s) = s.
Proof.
  induction s as [|c s' IH]; [reflexivity|].
  cbn [split_comma]. pose proof (split_comma_nonempty s') as Hne.
  destruct (Ascii.eqb c comma) eqn:Ec.
  - apply Ascii.eqb_eq in Ec. subst c.
    destruct (split_comma s') as [|piece pieces]; [contradiction|].
    change (String.concat "," (EmptyString :: piece :: pieces))
      with (String comma (String.concat "," (piece :: pieces))).
    rewrite IH. reflexivity.
  - destruct (split_comma s') as [|piece pieces]; [contradiction|].
    destruct pieces as [|piece' pieces'].
    + cbn [String.concat] in IH |- *. rewrite IH. reflexivity.
    + change (String.concat "," (String c piece :: piece' :: pieces'))
        with (String c (String.concat "," (piece :: piece' :: pieces'))).
      rewrite IH. reflexivity.
Qed.

Lemma split_comma_pieces (s : string) :
  Forall (fun piece => ~ has_comma piece) (split_comma s).
Proof.
  induction s as [|c s' IH]; cbn [split_comma].
  - constructor; [|constructor]. intros [].
  - destruct (Ascii.eqb c comma) eqn:Ec.
    + constructor; [intros []|exact IH].
    + apply Ascii.eqb_neq in Ec.
      destruct (split_comma s') as [|piece pieces].
      * constructor; [|constructor]. intros [H|[]]. congruence.
      * inversion IH as [|? ? Hp Hps]; subst. constructor; [|exact Hps].
        intros [H|H]; [congruence|]. exact (Hp H).
Qed.
Lemma split_option_empty (text : string) :
  text = EmptyString -> split_option text = Str EmptyString.
Proof. intros ->. reflexivity. Qed.

Lemma split_option_list (text : string) :
  text <> EmptyString -> split_option text = StrList (split_comma text).
Proof.
  intros Hne. unfold split_option.
  destruct (String.eqb text "") eqn:E; [|reflexivity].
  apply String.eqb_eq in E. contradiction.
Qed.

(** X11: [main] passes an option that was left empty on as the empty string; an
    option with a text is passed as the list of the pieces between its
    commas: the list is not empty, no piece holds a comma, empty pieces are
    kept, and the pieces joined with commas are the text of the option.  This
    holds for --genomes and for --exclude-genomes. *)
Theorem genome_lists_passed :
  forall (R : Type) (a : args R),
    (genomes a = EmptyString -> call_genomes (main a) = Str EmptyString)
    /\ (genomes a <> EmptyString ->
        exists l, call_genomes (main a) = StrList l
                  /\ l <> []
                  /\ String.concat "," l = genomes a
                  /\ Forall (fun piece => ~ has_comma piece) l)
    /\ (exclude_genomes a = EmptyString -> call_exclude (main a) = Str EmptyString)
    /\ (exclude_genomes a <> EmptyString ->
        exists l, call_exclude (main a) = StrList l
                  /\ l <> []
                  /\ String.concat "," l = exclude_genomes a
                  /\ Forall (fun piece => ~ has_comma piece) l).
Proof.
  intros R a. cbn [main call_genomes call_exclude].
  split; [apply split_option_empty|]. split.
  - intros Hne. exists (split_comma (genomes a)).
    split; [now apply split_option_list|].
    split; [apply split_comma_nonempty|].
    split; [apply split_comma_join | apply split_comma_pieces].
  - split; [apply split_option_empty|].
    intros Hne. exists (split_comma (exclude_genomes a)).
    split; [now apply split_option_list|].
    split; [apply split_comma_nonempty|].
    split; [apply split_comma_join | apply split_comma_pieces].
Qed.

Lemma genome_lists_passed_witness :
  call_exclude (main (mk_args "db.sqlite3" "out" "Athaliana,Osativa," ""
                        10000 (1 # 1)%Q (2 # 10)%Q false false))
  = Str EmptyString
  /\ exists l,
       call_genomes (main (mk_args "db.sqlite3" "out" "Athaliana,Osativa," ""
                             10000 (1 # 1)%Q (2 # 10)%Q false false))
       = StrList l
       /\ l <> []
       /\ String.concat "," l = "Athaliana,Osativa,"%string
       /\ Forall (fun piece => ~ has_comma piece) l.
Proof.
  pose proof (genome_lists_passed Q
                (mk_args "db.sqlite3" "out" "Athaliana,Osativa," ""
                   10000 (1 # 1)%Q (2 # 10)%Q false false)) as (_ & W2 & W3 & _).
  split.
  - apply W3. reflexivity.
  - apply W2. cbn. discriminate.
Defined.

(** X12: the script never calls [export] with a genome list and an exclusion
    list together: it stops with an assertion error exactly when both options
    have a text, and otherwise makes the call of [main], in which at most one
    of the two arguments is a list. *)
Theorem never_include_and_exclude :
  forall (R : Type) (a : args R),
    ((exists message, script a = AssertionError message)
     <-> genomes a <> EmptyString /\ exclude_genomes a <> EmptyString)
    /\ (forall c, script a = Exported c ->
                  c = main a
                  /\ is_list (call_genomes c) && is_list (call_exclude c) = false).
Proof.
  intros R a.
  assert (Hl : forall text,
             is_list (split_option text) = negb (String.eqb text "")).
  { intros text. unfold split_option. destruct (String.eqb text ""); reflexivity. }
  assert (Hc : is_list (call_genomes (main a)) && is_list (call_exclude (main a))
               = negb (String.eqb (genomes a) "")
                 && negb (String.eqb (exclude_genomes a) "")).
  { cbn [main call_genomes call_exclude]. rewrite !Hl. reflexivity. }
  unfold script, truthy.
  destruct (String.eqb (genomes a) "") eqn:Eg;
    destruct (String.eqb (exclude_genomes a) "") eqn:Ee; cbn [negb andb] in *.
  - apply String.eqb_eq in Eg. split.
    + split; [intros [m Hm]; discriminate Hm | intros [Hg _]; contradiction].
    + intros c [= <-]. split; [reflexivity | exact Hc].
  - apply String.eqb_eq in Eg. split.
    + split; [intros [m Hm]; discriminate Hm | intros [Hg _]; contradiction].
    + intros c [= <-]. split; [reflexivity | exact Hc].
  - apply String.eqb_eq in Ee. split.
    + split; [intros [m Hm]; discriminate Hm | intros [_ He]; contradiction].
    + intros c [= <-]. split; [reflexivity | exact Hc].
  - apply String.eqb_neq in Eg. apply String.eqb_neq in Ee. split.
    + split; [intros _; split; assumption | intros _; eexists; reflexivity].
    + intros c Hcall. discriminate Hcall.
Qed.

Lemma never_include_and_exclude_witness :
  (exists message,
      script (mk_args "db.sqlite3" "out" "Athaliana" "Osativa"
                10000 (1 # 1)%Q (2 # 10)%Q false false)
      = AssertionError message)
  /\ is_list (call_genomes (main (mk_args "db.sqlite3" "out" "Athaliana" ""
                                    10000 (1 # 1)%Q (2 # 10)%Q false false)))
     && is_list (call_exclude (main (mk_args "db.sqlite3" "out" "Athaliana" ""
                                       10000 (1 # 1)%Q (2 # 10)%Q false false)))
     = false.
Proof.
  split.
  - apply (proj1 (never_include_and_exclude Q
                    (mk_args "db.sqlite3" "out" "Athaliana" "Osativa"
                       10000 (1 # 1)%Q (2 # 10)%Q false false))).
    split; cbn; discriminate.
  - exact (proj2 (proj2 (never_include_and_exclude Q
                           (mk_args "db.sqlite3" "out" "Athaliana" ""
                              10000 (1 # 1)%Q (2 # 10)%Q false false))
                    _ eq_refl)).
Defined.

End ExportFacts.

(** * Properties of [HelixerModel.py] *)

Module ConfusionMatrixTrainFacts.
Import ConfusionMatrixTrain.

Lemma saved_epochs_app (l l' : list effect) :
  saved_epochs (l ++ l') = saved_epochs l ++ saved_epochs l'.
Proof.
  induction l as [|x l IH]; [reflexivity|].
  destruct x; cbn [saved_epochs app]; rewrite IH; reflexivity.
Qed.

(** One epoch: either the score is above the best, which it replaces, and
    the model is saved; or nothing changes. *)
Lemma on_epoch_end_cases (self : t) (epoch : Z) (s : score) :
  let r := on_epoch_end self epoch s in
  ((best_genic_f1 self < nan_to_zero s)%Q
   /\ best_genic_f1 (fst r) = nan_to_zero s
   /\ saved_epochs (snd r) = [epoch])
  \/ ((nan_to_zero s <= best_genic_f1 self)%Q
      /\ fst r = self
      /\ saved_epochs (snd r) = []).
Proof.
  unfold on_epoch_end. cbv zeta.
  destruct (Qle_bool (nan_to_zero s) (best_genic_f1 self)) eqn:E; cbn [negb fst snd].
  - right. apply Qle_bool_iff in E. split; [exact E|]. split; [reflexivity|].
    destruct (report_to_nni self); reflexivity.
  - left. split.
    + apply Qnot_le_lt. intros Hle. apply Qle_bool_iff in Hle. congruence.
    + split; [reflexivity|].
      rewrite saved_epochs_app. destruct (report_to_nni self); reflexivity.
Qed.

Lemma on_epoch_end_path (self : t) (epoch : Z) (s : score) :
  save_model_path (fst (on_epoch_end self epoch s)) = save_model_path self.
Proof.
  unfold on_epoch_end. cbv zeta. destruct (negb _); reflexivity.
Qed.

Lemma epochs_cons (self : t) (epoch : Z) (s : score) (rest : list score) :
  epochs self epoch (s :: rest)
  = (fst (epochs (fst (on_epoch_end self epoch s)) (epoch + 1) rest),
     snd (on_epoch_end self epoch s)
     ++ snd (epochs (fst (on_epoch_end self epoch s)) (epoch + 1) rest)).
Proof.
  cbn [epochs]. destruct (on_epoch_end self epoch s) as [self' effects].
  cbn [fst snd]. destruct (epochs self' (epoch + 1) rest). reflexivity.
Qed.

(** The best score after some epochs is at least the one before and at
    least every score of these epochs, and it is one of them. *)
Lemma epochs_best (calculated : list score) :
  forall (self : t) (epoch : Z),
    let self' := fst (epochs self epoch calculated) in
    (best_genic_f1 self <= best_genic_f1 self')%Q
    /\ (forall s, In s calculated -> (nan_to_zero s <= best_genic_f1 self')%Q)
    /\ (best_genic_f1 self' = best_genic_f1 self
        \/ In (best_genic_f1 self') (map nan_to_zero calculated))
    /\ save_model_path self' = save_model_path self.
Proof.
  induction calculated as [|s rest IH]; intros self epoch; cbv zeta.
  - cbn. split; [apply Qle_refl|]. split; [intros s []|]. auto.
  - rewrite epochs_cons. cbn [fst].
    specialize (IH (fst (on_epoch_end self epoch s)) (epoch + 1)). cbv zeta in IH.
    destruct IH as (Hle & Hall & Hin & Hpath).
    rewrite on_epoch_end_path in Hpath.
    destruct (on_epoch_end_cases self epoch s) as [(Hlt & Hb & _)|(Hle' & Hs & _)].
    + rewrite Hb in Hle, Hin. split; [|split; [|split]].
      * eapply Qle_trans; [apply Qlt_le_weak; exact Hlt|exact Hle].
      * intros s' [<-|Hs']; [exact Hle|now apply Hall].
      * right. destruct Hin as [Hin|Hin]; [left; now rewrite Hin|now right].
      * exact Hpath.
    + rewrite Hs in *. split; [exact Hle|]. split; [|split].
      * intros s' [<-|Hs']; [|now apply Hall].
        eapply Qle_trans; [exact Hle'|exact Hle].
      * destruct Hin as [Hin|Hin]; [now left|right; now right].
      * exact Hpath.
Qed.

(** The last save of some epochs is that of the first epoch whose score is
    the best of all; without a save nothing has changed. *)
Lemma epochs_saved (calculated : list score) :
  forall (self : t) (epoch : Z),
    let r := epochs self epoch calculated in
    (saved_epochs (snd r) = [] -> fst r = self)
    /\ (forall d, saved_epochs (snd r) <> [] ->
          exists (i : nat) (s : score),
            last (saved_epochs (snd r)) d = epoch + Z.of_nat i
            /\ nth_error calculated i = Some s
            /\ nan_to_zero s = best_genic_f1 (fst r)
            /\ (best_genic_f1 self < nan_to_zero s)%Q
            /\ forall (i' : nat) (s' : score),
                 (i' < i)%nat -> nth_error calculated i' = Some s' ->
                 (nan_to_zero s' < nan_to_zero s)%Q).
Proof.
  induction calculated as [|s rest IH]; intros self epoch; cbv zeta.
  - cbn. split; [reflexivity|]. intros d Hne. contradiction.
  - rewrite epochs_cons. cbn [fst snd]. rewrite saved_epochs_app.
    specialize (IH (fst (on_epoch_end self epoch s)) (epoch + 1)). cbv zeta in IH.
    destruct IH as (Hnone & Hsome).
    set (r' := epochs (fst (on_epoch_end self epoch s)) (epoch + 1) rest) in *.
    destruct (on_epoch_end_cases self epoch s)
      as [(Hlt & Hb & Hsaved)|(Hle & Hs & Hsaved)]; rewrite Hsaved.
    + split; [discriminate|]. intros d _.
      destruct (saved_epochs (snd r')) as [|k ks] eqn:Ek.
      * exists 0%nat, s. cbn [app last nth_error].
        rewrite (Hnone eq_refl), Hb.
        split; [lia|]. split; [reflexivity|]. split; [reflexivity|].
        split; [exact Hlt|]. intros i' s' Hi'. lia.
      * destruct (Hsome d ltac:(discriminate))
          as (i & si & Hlast & Hnth & Hbest & Hgt & Hfirst).
        exists (S i), si.
        change (last ([epoch] ++ k :: ks) d) with (last (k :: ks) d).
        rewrite Hlast. split; [lia|]. split; [exact Hnth|]. split; [exact Hbest|].
        rewrite Hb in Hgt. split; [eapply Qlt_trans; eassumption|].
        intros [|i'] s' Hi' Hs'.
        -- cbn in Hs'. injection Hs' as <-. exact Hgt.
        -- apply (Hfirst i' s'); [lia|exact Hs'].
    + cbn [app]. rewrite Hs in *. split.
      * intros Hnil. exact (Hnone Hnil).
      * intros d Hne.
        destruct (Hsome d Hne) as (i & si & Hlast & Hnth & Hbest & Hgt & Hfirst).
        exists (S i), si. rewrite Hlast. split; [lia|]. split; [exact Hnth|].
        split; [exact Hbest|]. split; [exact Hgt|].
        intros [|i'] s' Hi' Hs'.
        -- cbn in Hs'. injection Hs' as <-. eapply Qle_lt_trans; eassumption.
        -- apply (Hfirst i' s'); [lia|exact Hs'].
Qed.

Lemma training_fst (self : t) (calculated : list score) :
  fst (training self calculated) = fst (epochs self 0 calculated).
Proof. unfold training. destruct (epochs self 0 calculated). reflexivity. Qed.

Lemma training_saved (self : t) (calculated : list score) :
  saved_epochs (snd (training self calculated))
  = saved_epochs (snd (epochs self 0 calculated)).
Proof.
  unfold training. destruct (epochs self 0 calculated) as [self' effects].
  cbn [snd]. rewrite saved_epochs_app. unfold on_train_end.
  destruct (report_to_nni self'); cbn; now rewrite app_nil_r.
Qed.
(** X13: after a training, [best_genic_f1] is the highest of 0 and the genic F1
    of the epochs, a not-a-number counting as 0: it is not negative, no
    epoch scored more, and it is 0 or the score of an epoch.  The path the
    model is saved at has not changed. *)
Theorem best_genic_f1_is_maximum :
  forall (path : string) (nni : bool) (calculated : list score),
    let self := fst (training (init path nni) calculated) in
    (0 <= best_genic_f1 self)%Q
    /\ (forall s, In s calculated -> (nan_to_zero s <= best_genic_f1 self)%Q)
    /\ (best_genic_f1 self = 0%Q
        \/ In (best_genic_f1 self) (map nan_to_zero calculated))
    /\ save_model_path self = path.
Proof.
  intros path nni calculated self. subst self. rewrite training_fst.
  exact (epochs_best calculated (init path nni) 0).
Qed.

Lemma best_genic_f1_is_maximum_witness :
  (nan_to_zero (Num (3 # 10))
   <= best_genic_f1 (fst (training (init "best_model.h5" false)
                            [Num (3 # 10); NaN; Num (7 # 10)])))%Q.
Proof.
  apply (proj1 (proj2 (best_genic_f1_is_maximum "best_model.h5" false
                         [Num (3 # 10); NaN; Num (7 # 10)]))).
  left. reflexivity.
Defined.

(** X14: the callback saves no model at all exactly when no epoch has a genic F1
    above 0 (a not-a-number counting as 0).  Otherwise the model saved last,
    the one left on disk, is that of the first epoch whose genic F1 is the
    highest of the training. *)
Theorem saved_model_is_first_best :
  forall (path : string) (nni : bool) (calculated : list score),
    let r := training (init path nni) calculated in
    let saved := saved_epochs (snd r) in
    (saved = [] <-> forall s, In s calculated -> (nan_to_zero s <= 0)%Q)
    /\ (forall d, saved <> [] ->
          exists (i : nat) (s : score),
            last saved d = Z.of_nat i
            /\ nth_error calculated i = Some s
            /\ nan_to_zero s = best_genic_f1 (fst r)
            /\ (forall s', In s' calculated -> (nan_to_zero s' <= nan_to_zero s)%Q)
            /\ forall (i' : nat) (s' : score),
                 (i' < i)%nat -> nth_error calculated i' = Some s' ->
                 (nan_to_zero s' < nan_to_zero s)%Q).
Proof.
  intros path nni calculated r saved. subst saved r.
  rewrite training_saved, training_fst.
  destruct (epochs_saved calculated (init path nni) 0) as (Hnone & Hsome).
  destruct (epochs_best calculated (init path nni) 0) as (_ & Hall & _).
  cbv zeta in Hnone, Hsome, Hall. split; [split|].
  - intros Hnil s Hs. specialize (Hall s Hs).
    rewrite (Hnone Hnil) in Hall. exact Hall.
  - intros Hlow.
    destruct (saved_epochs (snd (epochs (init path nni) 0 calculated)))
      as [|k ks] eqn:Ek; [reflexivity|exfalso].
    destruct (Hsome 0 ltac:(discriminate)) as (i & s & _ & Hnth & _ & Hgt & _).
    apply (Qlt_irrefl 0%Q). eapply Qlt_le_trans; [exact Hgt|].
    apply Hlow. eapply nth_error_In. exact Hnth.
  - intros d Hne.
    destruct (Hsome d Hne) as (i & s & Hlast & Hnth & Hbest & _ & Hfirst).
    exists i, s. split; [rewrite Hlast; lia|]. split; [exact Hnth|].
    split; [exact Hbest|]. split; [|exact Hfirst].
    intros s' Hs'. rewrite Hbest. now apply Hall.
Qed.

Lemma saved_model_is_first_best_witness :
  saved_epochs (snd (training (init "best_model.h5" false) [NaN; Num 0]))
  = []
  /\ exists (i : nat) (s : score),
       last (saved_epochs
               (snd (training (init "best_model.h5" false)
                       [Num (3 # 10); NaN; Num (7 # 10); Num (7 # 10)]))) 0
       = Z.of_nat i
       /\ nth_error [Num (3 # 10); NaN; Num (7 # 10); Num (7 # 10)] i = Some s
       /\ nan_to_zero s = (7 # 10)%Q.
Proof.
  split.
  - apply (proj1 (saved_model_is_first_best "best_model.h5" false [NaN; Num 0])).
    intros s [<-|[<-|[]]]; vm_compute; discriminate.
  - destruct (proj2 (saved_model_is_first_best "best_model.h5" false
                       [Num (3 # 10); NaN; Num (7 # 10); Num (7 # 10)]) 0)
      as (i & s & Hlast & Hnth & Hbest & _).
    + vm_compute. discriminate.
    + exists i, s. split; [exact Hlast|]. split; [exact Hnth|].
      rewrite Hbest. vm_compute. reflexivity.
Defined.

End ConfusionMatrixTrainFacts.

Module AccuracyFacts.
Import Accuracy.

Lemma boolean_mask_map {A} (f : A -> bool) (rows : list A) :
  boolean_mask rows (map f rows) = filter f rows.
Proof.
  induction rows as [|r rows IH]; [reflexivity|].
  cbn [map boolean_mask filter]. rewrite IH. reflexivity.
Qed.

Lemma boolean_mask_nothing {A} (rows : list A) (mask : list bool) :
  Forall (fun m => m = false) mask -> boolean_mask rows mask = [].
Proof.
  intros Hm. revert rows. induction Hm as [|m mask Hm _ IH]; intros [|r rows];
    try reflexivity.
  cbn [boolean_mask]. rewrite Hm. apply IH.
Qed.

Lemma map2_map {A B C D E} (f : C -> D -> E) (g : A -> C) (h : B -> D)
    (l : list A) (l' : list B) :
  map2 f (map g l) (map h l') = map2 (fun a b => f (g a) (h b)) l l'.
Proof.
  revert l'. induction l as [|a l IH]; intros [|b l']; try reflexivity.
  cbn [map map2]. now rewrite IH.
Qed.

Lemma map2_diag {A B} (f : A -> A -> B) (l : list A) :
  map2 f l l = map (fun a => f a a) l.
Proof.
  induction l as [|a l IH]; [reflexivity|]. cbn [map map2]. now rewrite IH.
Qed.

(** The mask of [acc_region] is [selected] at every row. *)
Lemma acc_region_mask (y_true : list (Row Q)) (col : Z) (contents : list Q) :
  column y_true col = inr contents ->
  map2 andb (map any_one y_true) (map (fun x => Qeq_bool x 0) contents)
  = map (selected col 0) y_true
  /\ forall value,
       map2 andb (map any_one y_true) (map (fun x => Qeq_bool x value) contents)
       = map (selected col value) y_true.
Proof.
  intros Hcol.
  assert (Hc : contents = map (fun r => item_or 0%Q (row_list r) col) y_true).
  { unfold column in Hcol. destruct y_true as [|r rows].
    - injection Hcol as <-. reflexivity.
    - destruct (getitem (row_list r) col); [discriminate|].
      cbn [bind ret] in Hcol. injection Hcol as <-. reflexivity. }
  assert (Hall : forall value,
             map2 andb (map any_one y_true)
               (map (fun x => Qeq_bool x value) contents)
             = map (selected col value) y_true).
  { intros value. rewrite Hc, map_map, map2_map, map2_diag. reflexivity. }
  split; [apply Hall|exact Hall].
Qed.

(** The sum of a list of zeros and ones lies between the start value and
    the start value plus the length. *)
Lemma sum_between (errors : list Q) (acc : Q) :
  Forall (fun e => e = 0%Q \/ e = 1%Q) errors ->
  (acc <= fold_left Qplus errors acc)%Q
  /\ (fold_left Qplus errors acc <= acc + inject_Z (len errors))%Q.
Proof.
  intros He. revert acc. induction He as [|e errors He _ IH]; intros acc.
  - cbn. split; [apply Qle_refl|]. rewrite Qplus_0_r. apply Qle_refl.
  - cbn [fold_left]. destruct (IH (acc + e)%Q) as [Hlo Hhi].
    assert (E : (inject_Z (len (e :: errors)) == inject_Z (len errors) + 1)%Q).
    { unfold len. cbn [List.length]. rewrite Nat2Z.inj_succ.
      unfold Z.succ. rewrite inject_Z_plus. reflexivity. }
    assert (He0 : (0 <= e)%Q) by (destruct He as [->| ->]; vm_compute; discriminate).
    assert (He1 : (e <= 1)%Q) by (destruct He as [->| ->]; vm_compute; discriminate).
    split.
    + eapply Qle_trans; [|exact Hlo].
      rewrite <- (Qplus_0_r acc) at 1. apply Qplus_le_r. exact He0.
    + eapply Qle_trans; [exact Hhi|]. rewrite E.
      rewrite <- Qplus_assoc. apply Qplus_le_r.
      rewrite (Qplus_comm (inject_Z (len errors)) 1).
      apply Qplus_le_l. exact He1.
Qed.

Lemma mean_between (errors : list Q) :
  Forall (fun e => e = 0%Q \/ e = 1%Q) errors -> errors <> [] ->
  (0 <= mean errors <= 1)%Q.
Proof.
  intros He Hne. unfold mean. cbn [f_div f_add f_zero f_of_Z Q_Scalar].
  destruct (sum_between errors 0%Q He) as [Hlo Hhi].
  rewrite Qplus_0_l in Hhi.
  assert (Hpos : (0 < inject_Z (len errors))%Q).
  { change 0%Q with (inject_Z 0). rewrite <- Zlt_Qlt.
    unfold len. destruct errors; [contradiction|]. cbn [List.length]. lia. }
  split.
  - apply Qle_shift_div_l; [exact Hpos|]. rewrite Qmult_0_l. exact Hlo.
  - apply Qle_shift_div_r; [exact Hpos|]. rewrite Qmult_1_l. exact Hhi.
Qed.

Lemma errors_zero_one (ts ps : list Z) :
  Forall (fun e => e = 0%Q \/ e = 1%Q)
    (map2 (fun t p => if t =? p then 1%Q else 0%Q) ts ps).
Proof.
  revert ps. induction ts as [|t ts IH]; intros [|p ps]; cbn [map2];
    constructor; [|apply IH].
  destruct (t =? p); auto.
Qed.
Lemma boolean_mask_combine (keep : Row Q -> bool) (y_true y_pred : list (Row Q)) :
  List.length y_pred = List.length y_true ->
  map2 (fun t p => if t =? p then 1%Q else 0%Q)
    (map row_argmax (boolean_mask y_true (map keep y_true)))
    (map row_argmax (boolean_mask y_pred (map keep y_true)))
  = map (fun tp => if row_argmax (fst tp) =? row_argmax (snd tp)
                   then 1%Q else 0%Q)
      (filter (fun tp => keep (fst tp)) (combine y_true y_pred)).
Proof.
  revert y_pred. induction y_true as [|t ts IH]; intros [|p ps] Hlen;
    try discriminate Hlen; [reflexivity|].
  cbn [map boolean_mask combine filter fst].
  destruct (keep t); cbn [map map2 fst snd]; rewrite IH by (cbn in Hlen; lia);
    reflexivity.
Qed.

Lemma acc_region_where (y_true y_pred : list (Row Q)) (col : Z) (value : Q) :
  List.length y_pred = List.length y_true -> 0 <= col <= 3 ->
  acc_region y_true y_pred col value
  = inr (accuracy_where (selected col value) y_true y_pred).
Proof.
  intros Hlen Hcol. unfold acc_region, accuracy_where.
  destruct (column_in_range y_true col Hcol) as (contents & Hc & _).
  rewrite Hc. cbn [bind ret].
  rewrite (proj2 (acc_region_mask y_true col contents Hc) value).
  rewrite boolean_mask_combine by exact Hlen. reflexivity.
Qed.

Lemma selected_exclusive (r : Row Q) :
  selected 0 0 r && selected 0 1 r = false.
Proof.
  unfold selected. destruct (any_one r); [|reflexivity]. cbn [andb].
  destruct (Qeq_bool (item_or 0%Q (row_list r) 0) 0) eqn:E0; [|reflexivity].
  destruct (Qeq_bool (item_or 0%Q (row_list r) 0) 1) eqn:E1; [|reflexivity].
  apply Qeq_bool_iff in E0. apply Qeq_bool_iff in E1.
  rewrite E0 in E1. discriminate E1.
Qed.

(** X15: [acc_region] returns a share: a number from 0 to 1, and 0 when no
    position passes its mask (an empty batch, or labels that are all
    padding or all of the other kind). *)
Theorem accuracy_is_a_share :
  forall (y_true y_pred : list (Row Q)) (col : Z) (value a : Q),
    acc_region y_true y_pred col value = inr a ->
    (0 <= a <= 1)%Q
    /\ (Forall (fun r => selected col value r = false) y_true -> a = 0%Q).
Proof.
  intros y_true y_pred col value a. unfold acc_region.
  destruct (column y_true col) as [e|contents] eqn:Hc; [discriminate|].
  cbn [bind ret].
  rewrite (proj2 (acc_region_mask y_true col contents Hc) value).
  intros [= <-]. split.
  - destruct (len _ =? 0) eqn:E.
    + split; vm_compute; discriminate.
    + apply mean_between; [apply errors_zero_one|].
      intros Hnil. rewrite Hnil in E. discriminate E.
  - intros Hnone.
    rewrite !boolean_mask_nothing.
    + reflexivity.
    + apply Forall_map. exact Hnone.
    + apply Forall_map. exact Hnone.
Qed.

Lemma accuracy_is_a_share_witness :
  exists a : Q,
    acc_region [(0, 1, 0, 0); (0, 0, 1, 0); (1, 0, 0, 0); zero_label]%Q
      [(1 # 10, 7 # 10, 1 # 10, 1 # 10); (6 # 10, 2 # 10, 1 # 10, 1 # 10);
       (9 # 10, 0, 0, 1 # 10); (9 # 10, 0, 0, 1 # 10)]%Q 0 0%Q = inr a
    /\ (0 <= a <= 1)%Q.
Proof.
  assert (E : exists a : Q,
             acc_region [(0, 1, 0, 0); (0, 0, 1, 0); (1, 0, 0, 0); zero_label]%Q
               [(1 # 10, 7 # 10, 1 # 10, 1 # 10); (6 # 10, 2 # 10, 1 # 10, 1 # 10);
                (9 # 10, 0, 0, 1 # 10); (9 # 10, 0, 0, 1 # 10)]%Q 0 0%Q = inr a).
  { eexists. vm_compute. reflexivity. }
  destruct E as [a Ha]. exists a. split; [exact Ha|].
  exact (proj1 (accuracy_is_a_share _ _ 0 0%Q a Ha)).
Defined.

(** X16: [acc_g_oh] is the share of right predictions among the positions that
    [selected 0 0] keeps and [acc_ig_oh] among those that [selected 0 1]
    keeps.  No position counts for both; a padded position (all zeros)
    counts for neither; a position with a one-hot label counts for exactly
    one of them, for [acc_ig_oh] exactly when the label is intergenic. *)
Theorem accuracies_split_the_positions :
  forall (y_true y_pred : list (Row Q)),
    List.length y_pred = List.length y_true ->
    acc_g_oh y_true y_pred = inr (accuracy_where (selected 0 0) y_true y_pred)
    /\ acc_ig_oh y_true y_pred = inr (accuracy_where (selected 0 1) y_true y_pred)
    /\ (forall r, selected 0 0 r && selected 0 1 r = false)
    /\ selected 0 0 zero_label = false
    /\ selected 0 1 zero_label = false
    /\ (forall r, one_hot r ->
                  selected 0 0 r = negb (selected 0 1 r)
                  /\ (selected 0 1 r = true <-> r = (1, 0, 0, 0)%Q)).
Proof.
  intros y_true y_pred Hlen.
  split; [apply acc_region_where; [exact Hlen|lia]|].
  split; [apply acc_region_where; [exact Hlen|lia]|].
  split; [exact selected_exclusive|].
  split; [reflexivity|]. split; [reflexivity|].
  intros r [-> | [-> | [-> | ->]]]; (split; [reflexivity|]);
    (split; [intros Hsel; try reflexivity; discriminate Hsel
            | intros Heq; try reflexivity; discriminate Heq]).
Qed.

Lemma accuracies_split_the_positions_witness :
  acc_g_oh [(0, 1, 0, 0); (0, 0, 1, 0); (1, 0, 0, 0); zero_label]%Q
    [(1 # 10, 7 # 10, 1 # 10, 1 # 10); (6 # 10, 2 # 10, 1 # 10, 1 # 10);
     (9 # 10, 0, 0, 1 # 10); (9 # 10, 0, 0, 1 # 10)]%Q
  = inr (accuracy_where (selected 0 0)
           [(0, 1, 0, 0); (0, 0, 1, 0); (1, 0, 0, 0); zero_label]%Q
           [(1 # 10, 7 # 10, 1 # 10, 1 # 10); (6 # 10, 2 # 10, 1 # 10, 1 # 10);
            (9 # 10, 0, 0, 1 # 10); (9 # 10, 0, 0, 1 # 10)]%Q).
Proof.
  apply (proj1 (accuracies_split_the_positions
                  [(0, 1, 0, 0); (0, 0, 1, 0); (1, 0, 0, 0); zero_label]%Q
                  [(1 # 10, 7 # 10, 1 # 10, 1 # 10); (6 # 10, 2 # 10, 1 # 10, 1 # 10);
                   (9 # 10, 0, 0, 1 # 10); (9 # 10, 0, 0, 1 # 10)]%Q
                  eq_refl)).
Defined.

End AccuracyFacts.
